(** * NeutOsc.h: three-flavour neutrino oscillation probabilities

    A shallow embedding of [src/NeutOsc.h] (namespace [neutosc]) and the
    verification of its specification.

    Arithmetic model.  A C++ [double] holding a finite value is a real number
    of [R]; [+], [-], [*], [sin], [cos], [exp] and [sqrt] are the exact real
    operations (no rounding, no overflow).  Division is the one operation of
    the program that is undefined on reals: IEEE arithmetic answers a
    division by zero with an infinity or a NaN.  Wherever the program divides
    by a value it was given, every coefficient of the quotient gets a NaN or
    infinite part, and the additions, multiplications and exponentials that
    follow never make it finite again.  Such a value is the constructor
    [NonFinite] of [fp].

    Eigen.  [Matrix3cd] and [Vector3cd] are fixed-size arrays of
    [std::complex<double>], whose default constructor yields [(0,0)]: a
    default-constructed [Matrix3cd] is zero.  [Matrix3d] and [Vector3d] are
    arrays of [double], which default construction leaves as the storage
    held them.  Coefficient access with a run-time index is checked by
    [eigen_assert]; a failed assertion is the result [None]. *)

From Stdlib Require Import Reals Lra Lia ZArith List String Ascii Bool.
From Stdlib Require Import Sorted.
From Stdlib Require Import RNsatz.
Import ListNotations.

Open Scope R_scope.

(* ================================================================= *)
(** ** Values that a division by zero may have spoilt *)

Inductive fp (A : Type) : Type :=
| Fin (a : A)
| NonFinite.
Arguments Fin {A} a.
Arguments NonFinite {A}.

Definition fp_bind {A B : Type} (x : fp A) (f : A -> fp B) : fp B :=
  match x with
  | Fin a => f a
  | NonFinite => NonFinite
  end.

Definition fp_map {A B : Type} (f : A -> B) (x : fp A) : fp B :=
  match x with
  | Fin a => Fin (f a)
  | NonFinite => NonFinite
  end.

Notation "'let*' x := e 'in' k" := (fp_bind e (fun x => k))
  (at level 10, x name, e at level 100, k at level 200).

(** [x / d] on doubles. *)
Definition ddiv (x d : R) : fp R :=
  if Req_dec_T d 0 then NonFinite else Fin (x / d).

(* ================================================================= *)
(** ** [std::complex<double>] *)

Module Cplx.

Record complex : Type := mkC { Re : R; Im : R }.

(** Implicit conversion [double -> std::complex<double>]. *)
Definition RtoC (x : R) : complex := mkC x 0.

Definition C0 : complex := RtoC 0.
Definition C1 : complex := RtoC 1.

Definition Cadd (a b : complex) : complex :=
  mkC (Re a + Re b) (Im a + Im b).

Definition Cneg (a : complex) : complex :=
  mkC (- Re a) (- Im a).

Definition Csub (a b : complex) : complex :=
  mkC (Re a - Re b) (Im a - Im b).

Definition Cmul (a b : complex) : complex :=
  mkC (Re a * Re b - Im a * Im b) (Re a * Im b + Im a * Re b).

(** [complex * double] and [double * complex]. *)
Definition Crmul (a : complex) (x : R) : complex :=
  mkC (Re a * x) (Im a * x).

Definition Rcmul (x : R) (a : complex) : complex :=
  mkC (x * Re a) (x * Im a).

(** [complex / double], for a divisor known to be nonzero. *)
Definition Crdiv (a : complex) (x : R) : complex :=
  mkC (Re a / x) (Im a / x).

Definition Cconj (a : complex) : complex :=
  mkC (Re a) (- Im a).

(** [std::exp] on a complex number. *)
Definition Cexp (a : complex) : complex :=
  mkC (exp (Re a) * cos (Im a)) (exp (Re a) * sin (Im a)).

(** [Eigen::numext::abs2]: the squared magnitude. *)
Definition Cabs2 (a : complex) : R :=
  Re a * Re a + Im a * Im a.

End Cplx.
Export Cplx.

(* ================================================================= *)
(** ** Eigen's fixed-size types *)

Module Eigen.

(** A valid coefficient index of a 3-vector or of a row or column of a
    3 x 3 matrix. *)
Inductive idx : Type := I0 | I1 | I2.

(** The range check of [eigen_assert(index >= 0 && index < size())]. *)
Definition idx_of_Z (i : Z) : option idx :=
  if (i =? 0)%Z then Some I0
  else if (i =? 1)%Z then Some I1
  else if (i =? 2)%Z then Some I2
  else None.

Record Vector3cd : Type := mkV { v0 : complex; v1 : complex; v2 : complex }.

Record Vector3d : Type := mkVd { p0 : R; p1 : R; p2 : R }.

Record Matrix3cd : Type := mkM {
  m00 : complex; m01 : complex; m02 : complex;
  m10 : complex; m11 : complex; m12 : complex;
  m20 : complex; m21 : complex; m22 : complex
}.

Record Matrix3d : Type := mkMd {
  d00 : R; d01 : R; d02 : R;
  d10 : R; d11 : R; d12 : R;
  d20 : R; d21 : R; d22 : R
}.

Definition Vget (v : Vector3cd) (i : idx) : complex :=
  match i with I0 => v0 v | I1 => v1 v | I2 => v2 v end.

Definition Vset (v : Vector3cd) (i : idx) (x : complex) : Vector3cd :=
  match i with
  | I0 => mkV x (v1 v) (v2 v)
  | I1 => mkV (v0 v) x (v2 v)
  | I2 => mkV (v0 v) (v1 v) x
  end.

Definition Vdget (v : Vector3d) (i : idx) : R :=
  match i with I0 => p0 v | I1 => p1 v | I2 => p2 v end.

Definition Mget (M : Matrix3cd) (i j : idx) : complex :=
  match i, j with
  | I0, I0 => m00 M | I0, I1 => m01 M | I0, I2 => m02 M
  | I1, I0 => m10 M | I1, I1 => m11 M | I1, I2 => m12 M
  | I2, I0 => m20 M | I2, I1 => m21 M | I2, I2 => m22 M
  end.

Definition Mset (M : Matrix3cd) (i j : idx) (x : complex) : Matrix3cd :=
  match i, j with
  | I0, I0 => mkM x (m01 M) (m02 M) (m10 M) (m11 M) (m12 M) (m20 M) (m21 M) (m22 M)
  | I0, I1 => mkM (m00 M) x (m02 M) (m10 M) (m11 M) (m12 M) (m20 M) (m21 M) (m22 M)
  | I0, I2 => mkM (m00 M) (m01 M) x (m10 M) (m11 M) (m12 M) (m20 M) (m21 M) (m22 M)
  | I1, I0 => mkM (m00 M) (m01 M) (m02 M) x (m11 M) (m12 M) (m20 M) (m21 M) (m22 M)
  | I1, I1 => mkM (m00 M) (m01 M) (m02 M) (m10 M) x (m12 M) (m20 M) (m21 M) (m22 M)
  | I1, I2 => mkM (m00 M) (m01 M) (m02 M) (m10 M) (m11 M) x (m20 M) (m21 M) (m22 M)
  | I2, I0 => mkM (m00 M) (m01 M) (m02 M) (m10 M) (m11 M) (m12 M) x (m21 M) (m22 M)
  | I2, I1 => mkM (m00 M) (m01 M) (m02 M) (m10 M) (m11 M) (m12 M) (m20 M) x (m22 M)
  | I2, I2 => mkM (m00 M) (m01 M) (m02 M) (m10 M) (m11 M) (m12 M) (m20 M) (m21 M) x
  end.

(** [Vector3cd nu(0,0,0)]. *)
Definition Vzero : Vector3cd := mkV C0 C0 C0.

(** [nu(i) = x] with a run-time index: [None] when the assertion fails. *)
Definition Vset_at (v : Vector3cd) (i : Z) (x : complex) : option Vector3cd :=
  match idx_of_Z i with
  | Some k => Some (Vset v k x)
  | None => None
  end.

Definition Mmap (f : complex -> complex) (M : Matrix3cd) : Matrix3cd :=
  mkM (f (m00 M)) (f (m01 M)) (f (m02 M))
      (f (m10 M)) (f (m11 M)) (f (m12 M))
      (f (m20 M)) (f (m21 M)) (f (m22 M)).

(** A default-constructed [Matrix3cd]. *)
Definition Mzero : Matrix3cd :=
  mkM C0 C0 C0
      C0 C0 C0
      C0 C0 C0.

(** [Matrix3cd::Identity()]. *)
Definition Mid : Matrix3cd :=
  mkM C1 C0 C0
      C0 C1 C0
      C0 C0 C1.

(** Matrix product [A * B]. *)
Definition Mmul (A B : Matrix3cd) : Matrix3cd :=
  let e (a1 a2 a3 b1 b2 b3 : complex) :=
    Cadd (Cadd (Cmul a1 b1) (Cmul a2 b2)) (Cmul a3 b3) in
  mkM (e (m00 A) (m01 A) (m02 A) (m00 B) (m10 B) (m20 B))
      (e (m00 A) (m01 A) (m02 A) (m01 B) (m11 B) (m21 B))
      (e (m00 A) (m01 A) (m02 A) (m02 B) (m12 B) (m22 B))
      (e (m10 A) (m11 A) (m12 A) (m00 B) (m10 B) (m20 B))
      (e (m10 A) (m11 A) (m12 A) (m01 B) (m11 B) (m21 B))
      (e (m10 A) (m11 A) (m12 A) (m02 B) (m12 B) (m22 B))
      (e (m20 A) (m21 A) (m22 A) (m00 B) (m10 B) (m20 B))
      (e (m20 A) (m21 A) (m22 A) (m01 B) (m11 B) (m21 B))
      (e (m20 A) (m21 A) (m22 A) (m02 B) (m12 B) (m22 B)).

(** Matrix-vector product [A * v]. *)
Definition Mv (A : Matrix3cd) (v : Vector3cd) : Vector3cd :=
  let e (a1 a2 a3 : complex) :=
    Cadd (Cadd (Cmul a1 (v0 v)) (Cmul a2 (v1 v))) (Cmul a3 (v2 v)) in
  mkV (e (m00 A) (m01 A) (m02 A))
      (e (m10 A) (m11 A) (m12 A))
      (e (m20 A) (m21 A) (m22 A)).

Definition Vadd (u v : Vector3cd) : Vector3cd :=
  mkV (Cadd (v0 u) (v0 v)) (Cadd (v1 u) (v1 v)) (Cadd (v2 u) (v2 v)).

(** [M.adjoint()]: the conjugate transpose. *)
Definition adjoint (M : Matrix3cd) : Matrix3cd :=
  mkM (Cconj (m00 M)) (Cconj (m10 M)) (Cconj (m20 M))
      (Cconj (m01 M)) (Cconj (m11 M)) (Cconj (m21 M))
      (Cconj (m02 M)) (Cconj (m12 M)) (Cconj (m22 M)).

(** [z * M] for a complex scalar, [M * x] for a double. *)
Definition cM (z : complex) (M : Matrix3cd) : Matrix3cd := Mmap (Cmul z) M.
Definition Mr (M : Matrix3cd) (x : R) : Matrix3cd := Mmap (fun a => Crmul a x) M.

(** [M / x] for a double [x].  The matrices that the program divides by one
    of its inputs have coefficients with real part zero, so that a zero
    divisor leaves no coefficient finite. *)
Definition Mdivr (M : Matrix3cd) (x : R) : fp Matrix3cd :=
  if Req_dec_T x 0 then NonFinite else Fin (Mmap (fun a => Crdiv a x) M).

(** [v.cwiseAbs2()]. *)
Definition cwiseAbs2 (v : Vector3cd) : Vector3d :=
  mkVd (Cabs2 (v0 v)) (Cabs2 (v1 v)) (Cabs2 (v2 v)).

(** [MatrixPower<Matrix3cd>::computeIntPower(res, p)], Eigen's binary
    powering:
      [while (true) { if (fmod(pp, 2) >= 1) res = m_tmp * res;
                      pp /= 2; if (pp < 1) break; m_tmp *= m_tmp; }]
    for an exponent [pp] that is a positive integer. *)
Fixpoint computeIntPower (m_tmp res : Matrix3cd) (pp : positive) : Matrix3cd :=
  match pp with
  | xH => Mmul m_tmp res
  | xO q => computeIntPower (Mmul m_tmp m_tmp) res q
  | xI q => computeIntPower (Mmul m_tmp m_tmp) (Mmul m_tmp res) q
  end.

(** [MatrixPower<Matrix3cd>(A)(p)] for a positive integer [p]: [res] starts
    as the identity and there is no fractional part to add. *)
Definition MatrixPower (A : Matrix3cd) (p : positive) : Matrix3cd :=
  computeIntPower A Mid p.

(** The [n]-th power [A^n]. *)
Fixpoint Mpow (A : Matrix3cd) (n : nat) : Matrix3cd :=
  match n with
  | O => Mid
  | S k => Mmul A (Mpow A k)
  end.

End Eigen.
Export Eigen.

(* ================================================================= *)
(** ** namespace neutosc *)

Module NeutOsc.

(** [std::complex<double> If(0,1)]. *)
Definition If : complex := mkC 0 1.

(** [struct OscPars]. *)
Record OscPars : Type := mkOscPars {
  nu : Z;          (* initial flavour: 0=e, 1=mu, 2=tau *)
  anti : bool;
  E : R;           (* GeV *)
  L : R;           (* km *)
  th12 : R;
  th23 : R;
  th13 : R;
  Dm21sq : R;      (* eV^2 *)
  Dm31sq : R;      (* eV^2 *)
  dCP : R;
  rho : R          (* kg/m^3 *)
}.

(** The default member initialisers. *)
Definition OscPars_default : OscPars :=
  {| nu := 0; anti := false;
     E := 0.7; L := 33060.7 * 0.7;
     th12 := 0.5843; th23 := 0.738; th13 := 0.148;
     Dm21sq := 7.5e-5; Dm31sq := 2.457e-3;
     dCP := 1.38 * 3.14159265;
     rho := 0 |}.

Definition Reqb (x y : R) : bool := if Req_dec_T x y then true else false.

(** [OscPars::operator==] and [operator!=]. *)
Definition OscPars_eq (a other : OscPars) : bool :=
  Reqb (th12 a) (th12 other) && Reqb (th23 a) (th23 other) &&
  Reqb (th13 a) (th13 other) && Reqb (Dm21sq a) (Dm21sq other) &&
  Reqb (Dm31sq a) (Dm31sq other) && Reqb (dCP a) (dCP other).

Definition OscPars_neq (a other : OscPars) : bool := negb (OscPars_eq a other).

(** [class Oscillator]: the data members. *)
Record Oscillator : Type := mkOscillator {
  op : OscPars;
  U : Matrix3cd;
  Ud : Matrix3cd;
  H : Matrix3cd;
  V : Matrix3cd;
  Hexp : Matrix3cd;
  Vexp : Matrix3cd;
  Dmsq : Matrix3d
}.

(** [Oscillator::update()]. *)
Definition update (o : Oscillator) : Oscillator :=
  let p := op o in
  let s12 := sin (th12 p) in
  let s23 := sin (th23 p) in
  let s13 := sin (th13 p) in
  let c12 := cos (th12 p) in
  let c23 := cos (th23 p) in
  let c13 := cos (th13 p) in
  (* Chirality *)
  let ch := IZR (Z.b2z (anti p) * -2 + 1) in
  (* Construct mixing matrix. *)
  let U1 := mkM (RtoC 1) (RtoC 0) (RtoC 0)
                (RtoC 0) (RtoC c23) (RtoC s23)
                (RtoC 0) (RtoC (- s23)) (RtoC c23) in
  let U2 := mkM (RtoC c13) (RtoC 0)
                  (Rcmul s13 (Cexp (Crmul (Crmul (Cneg If) ch) (dCP p))))
                (RtoC 0) (RtoC 1) (RtoC 0)
                (Rcmul (- s13) (Cexp (Crmul (Crmul If ch) (dCP p))))
                  (RtoC 0) (RtoC c13) in
  let U3 := mkM (RtoC c12) (RtoC s12) (RtoC 0)
                (RtoC (- s12)) (RtoC c12) (RtoC 0)
                (RtoC 0) (RtoC 0) (RtoC 1) in
  let U' := Mmul (Mmul U1 U2) U3 in
  (* Hamiltonian and matter potential. *)
  let H' := mkM (RtoC 0) (RtoC 0) (RtoC 0)
                (RtoC 0) (RtoC (Dm21sq p)) (RtoC 0)
                (RtoC 0) (RtoC 0) (RtoC (Dm31sq p)) in
  let Gf := 4.54164e-37 in
  let Ne := rho p / 1.672e-27 / 2 in
  {| op := p;
     U := U';
     Ud := adjoint U';
     H := H';
     V := Mset (V o) I0 I0 (RtoC (ch * sqrt 2 * Gf * Ne * 1e3));
     Hexp := Hexp o;
     Vexp := Vexp o;
     Dmsq := Dmsq o |}.

(** [Oscillator::Oscillator()].  The complex matrices are default-constructed
    and hold zeros, [Dmsq] holds what the storage held ([junk]), and [op]
    gets its default member initialisers; then [update()] runs. *)
Definition Oscillator_new (junk : Matrix3d) : Oscillator :=
  update {| op := OscPars_default;
            U := Mzero; Ud := Mzero; H := Mzero; V := Mzero;
            Hexp := Mzero; Vexp := Mzero; Dmsq := junk |}.

(** [for(int j=0; j<3; ++j) M(j,j) = exp(M(j,j));] *)
Definition exp_diag (M : Matrix3cd) : Matrix3cd :=
  fold_left (fun M' j => Mset M' j j (Cexp (Mget M' j j))) [I0; I1; I2] M.

(** [Oscillator::transvac()]. *)
Definition transvac (o : Oscillator) : option (fp Vector3d) :=
  match Vset_at Vzero (nu (op o)) (RtoC 1) with
  | None => None
  | Some nu =>
      let conv := 2.534 in
      Some (let* Hexp := fp_map (fun M => Mr (Mr M conv) (L (op o)))
                           (Mdivr (cM (Cneg If) (H o)) (E (op o))) in
            let Hexp := exp_diag Hexp in
            Fin (cwiseAbs2 (Mv (Mmul (Mmul (U o) Hexp) (Ud o)) nu)))
  end.

(** [Oscillator::transmat()]. *)
Definition transmat (o : Oscillator) : option (fp Vector3d) :=
  match Vset_at Vzero (nu (op o)) (RtoC 1) with
  | None => None
  | Some nu =>
      let conv := 2.534 in
      let N := 128%positive in
      Some (let* Hexp := fp_bind (Mdivr (cM (Cneg If) (H o)) (E (op o)))
                           (fun M => Mdivr (Mr (Mr M conv) (L (op o)))
                                       (IZR (Zpos N))) in
            let Hexp := exp_diag Hexp in
            let* Vexp := Mdivr (Mr (cM (Cneg If) (V o)) (L (op o)))
                           (IZR (Zpos N)) in
            let Vexp := exp_diag Vexp in
            (* Slow matrix power. Better than exponential... *)
            let Apow := MatrixPower (Mmul (Mmul (Mmul Hexp (Ud o)) Vexp) (U o)) in
            Fin (cwiseAbs2 (Mv (Mmul (Mmul (U o) (Apow N)) (Ud o)) nu)))
  end.

(** [Oscillator::trans()]. *)
Definition trans (o : Oscillator) : option (fp Vector3d) :=
  if Req_dec_T (rho (op o)) 0 then transvac o else transmat o.

(** The loop of [numtrans]: [for(double l = 0; l < L; l+=step)].  When
    [E] is zero the amplitude [nu] is not finite from the first step on. *)
Fixpoint numtrans_loop (fuel : nat) (o : Oscillator) (E L step : R)
    (l : R) (nu : fp Vector3cd) (result : list (fp Vector3d))
    : option (list (fp Vector3d)) :=
  match fuel with
  | O => None
  | S fuel' =>
      if Rlt_dec l L then
        let conv := 2.534 in
        let nu' :=
          let* v := nu in
          let* M := Mdivr (Mr (Mr (cM (Cneg If) (H o)) conv) step) E in
          Fin (Vadd v (Mv M v)) in
        numtrans_loop fuel' o E L step (l + step) nu'
          (result ++ [fp_map (fun v => cwiseAbs2 (Mv (U o) v)) nu'])
      else Some result
  end.

(** [Oscillator::numtrans(nu1, E, L, step)]; [None] when the index assertion
    fails or when [fuel] iterations do not end the loop. *)
Definition numtrans (fuel : nat) (o : Oscillator) (nu1 : Z) (E L step : R)
    : option (list (fp Vector3d)) :=
  match Vset_at Vzero nu1 (RtoC 1) with
  | None => None
  | Some nu =>
      let nu := Mv (Ud o) nu in
      numtrans_loop fuel o E L step 0 (Fin nu)
        [Fin (cwiseAbs2 (Mv (U o) nu))]
  end.

(** *** Output streams

    What [operator<<] appends to a stream: the characters of a string or a
    single character, or a formatted [double]. *)
Inductive item : Type :=
| Ch (c : ascii)
| Num (x : fp R).

Definition nl : ascii := "010"%char.

Definition text (s : string) : list item := map Ch (list_ascii_of_string s).

(** [probs[i](k)] for the vector [probs[i]]. *)
Definition coeff (k : idx) (v : fp Vector3d) : fp R :=
  fp_map (fun v => Vdget v k) v.

(** [exportData(probs, final)].  [opens] tells whether [ofile.is_open()];
    the result is the content of [nu.csv] (when it was created) and what was
    sent to [std::cout]. *)
Definition exportData (opens : bool) (probs : list (fp Vector3d)) (final : R)
    : option (list item) * list item :=
  let filename := "nu.csv"%string in
  if negb opens then
    (None, text "Couldn't create file " ++ text filename ++ text "." ++ [Ch nl])
  else
    (* Header. *)
    let ofile := text "x,e,mu,tau" ++ [Ch nl] in
    (* Record probabilities as function of variable x, either E or L. *)
    let ofile :=
      fold_left
        (fun ofile i =>
           ofile ++ [Num (Fin (INR i * (final / INR (List.length probs)))); Ch ","%char;
                     Num (coeff I0 (nth i probs NonFinite)); Ch ","%char;
                     Num (coeff I1 (nth i probs NonFinite)); Ch ","%char;
                     Num (coeff I2 (nth i probs NonFinite)); Ch nl])
        (seq 0 (List.length probs)) ofile in
    (Some ofile, text "Saving to " ++ text filename ++ text "." ++ [Ch nl]).

(** *** The parameter sweep

    [oscillate] takes a [double&]: a reference to one of the [double] members
    of the engine's parameter set (through [pars()]), or to a [double] that is
    not part of the engine. *)
Inductive dref : Type :=
| ref_E | ref_L | ref_th12 | ref_th23 | ref_th13
| ref_Dm21sq | ref_Dm31sq | ref_dCP | ref_rho
| ref_cell.

Record memory : Type := mkMemory { osc : Oscillator; cell : R }.

Definition load (r : dref) (m : memory) : R :=
  let p := op (osc m) in
  match r with
  | ref_E => E p | ref_L => L p
  | ref_th12 => th12 p | ref_th23 => th23 p | ref_th13 => th13 p
  | ref_Dm21sq => Dm21sq p | ref_Dm31sq => Dm31sq p
  | ref_dCP => dCP p | ref_rho => rho p
  | ref_cell => cell m
  end.

(** Writing the parameter set through [Oscillator::pars()]. *)
Definition set_op (o : Oscillator) (p : OscPars) : Oscillator :=
  {| op := p; U := U o; Ud := Ud o; H := H o; V := V o;
     Hexp := Hexp o; Vexp := Vexp o; Dmsq := Dmsq o |}.

Definition store (r : dref) (x : R) (m : memory) : memory :=
  let o := osc m in
  let p := op o in
  let w (p' : OscPars) := {| osc := set_op o p'; cell := cell m |} in
  match r with
  | ref_E => w (mkOscPars (nu p) (anti p) x (L p) (th12 p) (th23 p) (th13 p) (Dm21sq p) (Dm31sq p) (dCP p) (rho p))
  | ref_L => w (mkOscPars (nu p) (anti p) (E p) x (th12 p) (th23 p) (th13 p) (Dm21sq p) (Dm31sq p) (dCP p) (rho p))
  | ref_th12 => w (mkOscPars (nu p) (anti p) (E p) (L p) x (th23 p) (th13 p) (Dm21sq p) (Dm31sq p) (dCP p) (rho p))
  | ref_th23 => w (mkOscPars (nu p) (anti p) (E p) (L p) (th12 p) x (th13 p) (Dm21sq p) (Dm31sq p) (dCP p) (rho p))
  | ref_th13 => w (mkOscPars (nu p) (anti p) (E p) (L p) (th12 p) (th23 p) x (Dm21sq p) (Dm31sq p) (dCP p) (rho p))
  | ref_Dm21sq => w (mkOscPars (nu p) (anti p) (E p) (L p) (th12 p) (th23 p) (th13 p) x (Dm31sq p) (dCP p) (rho p))
  | ref_Dm31sq => w (mkOscPars (nu p) (anti p) (E p) (L p) (th12 p) (th23 p) (th13 p) (Dm21sq p) x (dCP p) (rho p))
  | ref_dCP => w (mkOscPars (nu p) (anti p) (E p) (L p) (th12 p) (th23 p) (th13 p) (Dm21sq p) (Dm31sq p) x (rho p))
  | ref_rho => w (mkOscPars (nu p) (anti p) (E p) (L p) (th12 p) (th23 p) (th13 p) (Dm21sq p) (Dm31sq p) (dCP p) x)
  | ref_cell => {| osc := o; cell := x |}
  end.

(** [result[i] = r]. *)
Fixpoint assign {A : Type} (l : list A) (i : nat) (r : A) : list A :=
  match l, i with
  | [], _ => []
  | _ :: t, O => r :: t
  | a :: t, S j => a :: assign t j r
  end.

(** The loop of [oscillate], with [k] iterations left to run. *)
Fixpoint oscillate_loop (k : nat) (i : Z) (par : dref) (step : R)
    (m : memory) (result : list (fp Vector3d))
    : option (memory * list (fp Vector3d)) :=
  match k with
  | O => Some (m, result)
  | S k' =>
      let m := store par (IZR i * step) m in
      let m := {| osc := update (osc m); cell := cell m |} in
      match trans (osc m) with
      | None => None
      | Some r =>
          oscillate_loop k' (i + 1) par step m (assign result (Z.to_nat i) r)
      end
  end.

(** [oscillate(osc, par, numsteps)].  [std::vector<Vector3d> result(numsteps)]
    holds [numsteps] vectors that are not initialised ([junk]); a negative
    [numsteps] makes its constructor throw.  [step] is read only inside the
    loop, which does not run when [numsteps] is zero. *)
Definition oscillate (junk : fp Vector3d) (m : memory) (par : dref)
    (numsteps : Z) : option (list (fp Vector3d) * memory) :=
  let initial := load par m in
  let step := initial / IZR numsteps in
  if (numsteps <? 0)%Z then None
  else
    match oscillate_loop (Z.to_nat numsteps) 0 par step m
            (repeat junk (Z.to_nat numsteps)) with
    | None => None
    | Some (m', result) =>
        (* Reset to original parameter value to avoid rounding errors. *)
        Some (result, store par initial m')
    end.

End NeutOsc.
Export NeutOsc.

(* ================================================================= *)
(** ** The quantities the specification speaks of *)

Module Spec.

(** The flavours are numbered 0 (e), 1 (mu) and 2 (tau). *)
Definition flavour (f : Z) : Prop := (0 <= f < 3)%Z.

(** The unit vector with 1 at index [f], as amplitudes and as
    probabilities. *)
Definition e_ (f : Z) : Vector3cd :=
  mkV (if (f =? 0)%Z then C1 else C0)
      (if (f =? 1)%Z then C1 else C0)
      (if (f =? 2)%Z then C1 else C0).

Definition delta (f : Z) : Vector3d :=
  mkVd (if (f =? 0)%Z then 1 else 0)
       (if (f =? 1)%Z then 1 else 0)
       (if (f =? 2)%Z then 1 else 0).

Definition total (p : Vector3d) : R := p0 p + p1 p + p2 p.

Definition diag (a b c : complex) : Matrix3cd :=
  mkM a C0 C0
      C0 b C0
      C0 C0 c.

(** [exp(-i z)]. *)
Definition cphase (z : complex) : complex := Cexp (Cmul (Cneg If) z).
Definition phase (x : R) : complex := cphase (RtoC x).

(** The diagonal of the stored Hamiltonian. *)
Definition H_ (p : OscPars) (k : idx) : R :=
  match k with I0 => 0 | I1 => Dm21sq p | I2 => Dm31sq p end.

(** The vacuum propagator: the diagonal matrix with entries
    [exp(-i H_kk 2.534 baseline / energy)]. *)
Definition vacuum_D (p : OscPars) : fp Matrix3cd :=
  let entry k := fp_map phase (ddiv (H_ p k * 2.534 * L p) (E p)) in
  let* a := entry I0 in
  let* b := entry I1 in
  let* c := entry I2 in
  Fin (diag a b c).

(** The squared magnitudes of [U D U^+ e_f]. *)
Definition vacuum_formula (Um : Matrix3cd) (p : OscPars) : fp Vector3d :=
  let* D := vacuum_D p in
  Fin (cwiseAbs2 (Mv Um (Mv D (Mv (adjoint Um) (e_ (nu p)))))).

(** The per-segment propagators of the matter algorithm: diagonal, with
    entries [exp(-i H_kk 2.534 (baseline/128) / energy)] and
    [exp(-i V_kk (baseline/128))]. *)
Definition matter_Hexp (p : OscPars) : fp Matrix3cd :=
  let entry k := fp_map phase (ddiv (H_ p k * 2.534 * (L p / 128)) (E p)) in
  let* a := entry I0 in
  let* b := entry I1 in
  let* c := entry I2 in
  Fin (diag a b c).

Definition matter_Vexp (Vm : Matrix3cd) (p : OscPars) : Matrix3cd :=
  let entry k := cphase (Crmul (Mget Vm k k) (L p / 128)) in
  diag (entry I0) (entry I1) (entry I2).

(** The squared magnitudes of [U A^128 U^+ e_f] for
    [A = Hexp U^+ Vexp U]. *)
Definition matter_formula (Um Vm : Matrix3cd) (p : OscPars) : fp Vector3d :=
  let* Hexp := matter_Hexp p in
  let Vexp := matter_Vexp Vm p in
  let A := Mmul Hexp (Mmul (adjoint Um) (Mmul Vexp Um)) in
  Fin (cwiseAbs2 (Mv Um (Mv (Mpow A 128) (Mv (adjoint Um) (e_ (nu p)))))).

(** The chirality sign: +1 for a neutrino, -1 for an antineutrino. *)
Definition chirality (p : OscPars) : R := if anti p then -1 else 1.

(** The reduced Fermi constant (times (c hbar)^2, in m^2) and the electron
    number density (in m^-3) of matter of density [rho]. *)
Definition Gf : R := 4.54164e-37.
Definition electron_density (rho : R) : R := rho / 1.672e-27 / 2.

(** A matrix whose coefficients other than (0,0) are zero. *)
Definition zero_but_00 (M : Matrix3cd) : Prop :=
  forall i j, (i, j) <> (I0, I0) -> Mget M i j = C0.

(** Two parameter sets that agree on every field but [rho]. *)
Definition same_but_rho (p q : OscPars) : Prop :=
  nu p = nu q /\ anti p = anti q /\ E p = E q /\ L p = L q /\
  th12 p = th12 q /\ th23 p = th23 q /\ th13 p = th13 q /\
  Dm21sq p = Dm21sq q /\ Dm31sq p = Dm31sq q /\ dCP p = dCP q.

(** The lines of a text file: the runs of items between newlines. *)
Fixpoint lines_from (cur : list item) (l : list item) : list (list item) :=
  match l with
  | [] => match cur with [] => [] | _ => [rev cur] end
  | Ch c :: l' =>
      if Ascii.eqb c nl then rev cur :: lines_from [] l'
      else lines_from (Ch c :: cur) l'
  | x :: l' => lines_from (x :: cur) l'
  end.

Definition lines (l : list item) : list (list item) := lines_from [] l.

(** The [x] column of a data line: its first field. *)
Definition x_of (ln : list item) : fp R :=
  match ln with
  | Num x :: _ => x
  | _ => NonFinite
  end.

(** A data line [x,e,mu,tau]. *)
Definition row (x : R) (v : fp Vector3d) : list item :=
  [Num (Fin x); Ch ","%char; Num (coeff I0 v); Ch ","%char;
   Num (coeff I1 v); Ch ","%char; Num (coeff I2 v)].

Definition header : list item := text "x,e,mu,tau".

(** Non-decreasing sequences of printed numbers. *)
Definition fp_le (a b : fp R) : Prop :=
  match a, b with
  | Fin x, Fin y => x <= y
  | _, _ => False
  end.

Definition non_decreasing (l : list (fp R)) : Prop := Sorted fp_le l.

End Spec.
Export Spec.

(* ================================================================= *)
(** ** Engines *)

(** The engines a client can have: a constructed one, one whose parameter
    set was edited through [pars()], one on which [update()] was called. *)
Inductive reachable : Oscillator -> Prop :=
| reach_new junk : reachable (Oscillator_new junk)
| reach_pars o p : reachable o -> reachable (set_op o p)
| reach_update o : reachable o -> reachable (update o).

Module Examples.

Definition Mdzero : Matrix3d := mkMd 0 0 0 0 0 0 0 0 0.

(** The engine with the default parameters. *)
Definition default_engine : Oscillator := Oscillator_new Mdzero.

(** [Oscillator osc; osc.pars() = p; osc.update();] *)
Definition engine (p : OscPars) : Oscillator :=
  update (set_op default_engine p).

(** The default parameters in matter of density 1 kg/m^3. *)
Definition in_matter : OscPars :=
  {| nu := 0; anti := false;
     E := 0.7; L := 33060.7 * 0.7;
     th12 := 0.5843; th23 := 0.738; th13 := 0.148;
     Dm21sq := 7.5e-5; Dm31sq := 2.457e-3;
     dCP := 1.38 * 3.14159265;
     rho := 1 |}.

(** The default parameters at zero baseline, with energy 0.7 and with
    energy 0. *)
Definition at_source : OscPars :=
  {| nu := 0; anti := false;
     E := 0.7; L := 0;
     th12 := 0.5843; th23 := 0.738; th13 := 0.148;
     Dm21sq := 7.5e-5; Dm31sq := 2.457e-3;
     dCP := 1.38 * 3.14159265;
     rho := 0 |}.

Definition at_rest : OscPars :=
  {| nu := 0; anti := false;
     E := 0; L := 0;
     th12 := 0.5843; th23 := 0.738; th13 := 0.148;
     Dm21sq := 7.5e-5; Dm31sq := 2.457e-3;
     dCP := 1.38 * 3.14159265;
     rho := 0 |}.

(** An electron-neutrino sample. *)
Definition sample_e : fp Vector3d := Fin (mkVd 1 0 0).

End Examples.
Export Examples.

(* ================================================================= *)
(** ** Linear algebra used in the proofs *)

Definition norm2 (v : Vector3cd) : R :=
  Cabs2 (v0 v) + Cabs2 (v1 v) + Cabs2 (v2 v).

Definition dot (u v : Vector3cd) : complex :=
  Cadd (Cadd (Cmul (Cconj (v0 u)) (v0 v)) (Cmul (Cconj (v1 u)) (v1 v)))
       (Cmul (Cconj (v2 u)) (v2 v)).

Definition unitary (M : Matrix3cd) : Prop :=
  Mmul (adjoint M) M = Mid /\ Mmul M (adjoint M) = Mid.

Definition off_diagonal_zero (M : Matrix3cd) : Prop :=
  forall i j, i <> j -> Mget M i j = C0.

(** *** Auxiliary notions for the sweep and the export *)

Definition refresh (m : memory) : memory :=
  {| osc := update (osc m); cell := cell m |}.

(** The engine during a sweep of [par] from [m0]: the initial one, or the
    initial one with the swept parameter overwritten and the derived
    quantities recomputed. *)
Definition swept (par : dref) (m0 m : memory) : Prop :=
  m = m0 \/ exists x, m = refresh (store par x m0).

Definition no_newline (x : item) : Prop :=
  match x with
  | Ch c => Ascii.eqb c nl = false
  | Num _ => True
  end.

(** The three factors of the mixing matrix. *)
Definition rot23 (c s : R) : Matrix3cd :=
  mkM (RtoC 1) (RtoC 0) (RtoC 0)
      (RtoC 0) (RtoC c) (RtoC s)
      (RtoC 0) (RtoC (- s)) (RtoC c).

Definition rot13 (c s : R) (em ep : complex) : Matrix3cd :=
  mkM (RtoC c) (RtoC 0) (Rcmul s em)
      (RtoC 0) (RtoC 1) (RtoC 0)
      (Rcmul (- s) ep) (RtoC 0) (RtoC c).

Definition rot12 (c s : R) : Matrix3cd :=
  mkM (RtoC c) (RtoC s) (RtoC 0)
      (RtoC (- s)) (RtoC c) (RtoC 0)
      (RtoC 0) (RtoC 0) (RtoC 1).

(* ================================================================= *)
(** ** Further notions *)

(** A probability distribution over the three flavours. *)
Definition distribution (p : Vector3d) : Prop :=
  0 <= p0 p <= 1 /\ 0 <= p1 p <= 1 /\ 0 <= p2 p <= 1 /\ total p = 1.

(** Two parameter sets that agree on the fields [update] reads to build
    [U] and [H]. *)
Definition same_mixing (p q : OscPars) : Prop :=
  anti p = anti q /\
  th12 p = th12 q /\ th23 p = th23 q /\ th13 p = th13 q /\
  Dm21sq p = Dm21sq q /\ Dm31sq p = Dm31sq q /\ dCP p = dCP q.

(** The parameter set of the antiparticle, with the same and with the
    opposite CP phase. *)
Definition antiparticle (p : OscPars) : OscPars :=
  mkOscPars (nu p) (negb (anti p)) (E p) (L p) (th12 p) (th23 p) (th13 p)
            (Dm21sq p) (Dm31sq p) (dCP p) (rho p).

Definition mirror (p : OscPars) : OscPars :=
  mkOscPars (nu p) (negb (anti p)) (E p) (L p) (th12 p) (th23 p) (th13 p)
            (Dm21sq p) (Dm31sq p) (- dCP p) (rho p).

(** The coefficient-wise complex conjugate. *)
Definition conjugate (M : Matrix3cd) : Matrix3cd := Mmap Cconj M.

(** What every engine keeps between calls: a unitary [U], its adjoint in
    [Ud], and a real diagonal [H] that starts with 0. *)
Definition coherent (o : Oscillator) : Prop :=
  unitary (U o) /\ Ud o = adjoint (U o) /\
  exists h1 h2, H o = diag (RtoC 0) (RtoC h1) (RtoC h2).



(** A sample that is finite and whose components sum to at least 1. *)
Definition at_least_one (s : fp Vector3d) : Prop :=
  match s with
  | Fin p => 1 <= total p
  | NonFinite => False
  end.

(** Parameter sets for the examples below: equal masses, no mixing, zero
    baseline in matter, maximal [th13] and [dCP], and the default set with
    energy and baseline doubled. *)
Definition massless : OscPars :=
  {| nu := 1; anti := false;
     E := 0.7; L := 33060.7 * 0.7;
     th12 := 0.5843; th23 := 0.738; th13 := 0.148;
     Dm21sq := 0; Dm31sq := 0;
     dCP := 1.38 * 3.14159265;
     rho := 0 |}.

Definition unmixed : OscPars :=
  {| nu := 2; anti := false;
     E := 0.7; L := 33060.7 * 0.7;
     th12 := 0; th23 := 0; th13 := 0;
     Dm21sq := 7.5e-5; Dm31sq := 2.457e-3;
     dCP := 1.38 * 3.14159265;
     rho := 0 |}.

Definition at_source_in_matter : OscPars :=
  {| nu := 1; anti := true;
     E := 0.7; L := 0;
     th12 := 0.5843; th23 := 0.738; th13 := 0.148;
     Dm21sq := 7.5e-5; Dm31sq := 2.457e-3;
     dCP := 1.38 * 3.14159265;
     rho := 2700 |}.

Definition maximal : OscPars :=
  {| nu := 0; anti := false;
     E := 0.7; L := 33060.7 * 0.7;
     th12 := 0; th23 := 0; th13 := PI / 2;
     Dm21sq := 7.5e-5; Dm31sq := 2.457e-3;
     dCP := PI / 2;
     rho := 0 |}.

Definition doubled : OscPars :=
  {| nu := 0; anti := false;
     E := 2 * 0.7; L := 2 * (33060.7 * 0.7);
     th12 := 0.5843; th23 := 0.738; th13 := 0.148;
     Dm21sq := 7.5e-5; Dm31sq := 2.457e-3;
     dCP := 1.38 * 3.14159265;
     rho := 0 |}.

(* ================================================================= *)
(** ** Complex and matrix algebra *)

Lemma complex_eq (a b : complex) : Re a = Re b -> Im a = Im b -> a = b.
Proof. destruct a, b; simpl; intros; subst; reflexivity. Qed.

Lemma complex_ring : ring_theory C0 C1 Cadd Cmul Csub Cneg eq.
Proof.
  constructor; intros; apply complex_eq;
    unfold Csub, Cadd, Cmul, Cneg, C0, C1, RtoC; simpl; ring.
Qed.

Add Ring complex_ring_structure : complex_ring.

Lemma Cconj_add a b : Cconj (Cadd a b) = Cadd (Cconj a) (Cconj b).
Proof. apply complex_eq; simpl; ring. Qed.

Lemma Cconj_mul a b : Cconj (Cmul a b) = Cmul (Cconj a) (Cconj b).
Proof. apply complex_eq; simpl; ring. Qed.

Lemma Cconj_involutive a : Cconj (Cconj a) = a.
Proof. apply complex_eq; simpl; ring. Qed.

Ltac destr_all :=
  repeat match goal with
  | M : Matrix3cd |- _ => destruct M
  | v : Vector3cd |- _ => destruct v
  | z : complex |- _ => destruct z
  end.

Ltac unfold_C :=
  unfold Cadd, Cmul, Cneg, Crmul, Rcmul, Crdiv, Cconj, Cabs2, RtoC, C0, C1 in *;
  simpl.

(** Equations between complex numbers, through their parts. *)
Ltac ceq := apply complex_eq; unfold_C; try ring.

(** Equations between matrices or vectors of complex polynomials. *)
Ltac meq :=
  repeat match goal with
  | M : Matrix3cd |- _ => destruct M
  | v : Vector3cd |- _ => destruct v
  end;
  unfold Mmul, Mv, Vadd, adjoint, Mid;
  cbn [m00 m01 m02 m10 m11 m12 m20 m21 m22 v0 v1 v2];
  rewrite ?Cconj_add, ?Cconj_mul, ?Cconj_involutive;
  f_equal; ring.

Lemma Mmul_assoc A B C : Mmul (Mmul A B) C = Mmul A (Mmul B C).
Proof. meq. Qed.

Lemma Mv_Mmul A B v : Mv (Mmul A B) v = Mv A (Mv B v).
Proof. meq. Qed.

Lemma adjoint_Mmul A B : adjoint (Mmul A B) = Mmul (adjoint B) (adjoint A).
Proof. meq. Qed.

Lemma adjoint_involutive A : adjoint (adjoint A) = A.
Proof. meq. Qed.

Lemma Mmul_1_l A : Mmul Mid A = A.
Proof. meq. Qed.

Lemma Mmul_1_r A : Mmul A Mid = A.
Proof. meq. Qed.

Lemma Mv_1 v : Mv Mid v = v.
Proof. meq. Qed.

Lemma dot_adjoint M u v : dot u (Mv M v) = dot (Mv (adjoint M) u) v.
Proof.
  destruct M, u, v. unfold dot, Mv, adjoint.
  cbn [m00 m01 m02 m10 m11 m12 m20 m21 m22 v0 v1 v2].
  rewrite ?Cconj_add, ?Cconj_mul, ?Cconj_involutive. ring.
Qed.

Lemma norm2_dot v : norm2 v = Re (dot v v).
Proof. destr_all. unfold norm2, dot. unfold_C. ring. Qed.

Lemma total_cwiseAbs2 v : total (cwiseAbs2 v) = norm2 v.
Proof. reflexivity. Qed.

(** *** Unitary matrices *)

Lemma unitary_Mmul A B : unitary A -> unitary B -> unitary (Mmul A B).
Proof.
  intros [HA1 HA2] [HB1 HB2]. split; rewrite adjoint_Mmul.
  - rewrite Mmul_assoc, <- (Mmul_assoc (adjoint A)), HA1, Mmul_1_l. exact HB1.
  - rewrite Mmul_assoc, <- (Mmul_assoc B), HB2, Mmul_1_l. exact HA2.
Qed.

Lemma unitary_adjoint A : unitary A -> unitary (adjoint A).
Proof.
  intros [H1 H2]. split; rewrite adjoint_involutive; assumption.
Qed.

Lemma unitary_norm2 M v : unitary M -> norm2 (Mv M v) = norm2 v.
Proof.
  intros [HM _].
  rewrite (norm2_dot (Mv M v)), dot_adjoint, <- Mv_Mmul, HM, Mv_1.
  symmetry. apply norm2_dot.
Qed.

Lemma rot23_unitary c s : s * s + c * c = 1 -> unitary (rot23 c s).
Proof.
  intros Hcs.
  split; unfold rot23, Mmul, adjoint, Mid; cbn; f_equal; ceq; nra.
Qed.

Lemma rot12_unitary c s : s * s + c * c = 1 -> unitary (rot12 c s).
Proof.
  intros Hcs.
  split; unfold rot12, Mmul, adjoint, Mid; cbn; f_equal; ceq; nra.
Qed.

Lemma rot13_unitary c s x :
  s * s + c * c = 1 ->
  unitary (rot13 c s (mkC (cos x) (- sin x)) (mkC (cos x) (sin x))).
Proof.
  intros Hcs. pose proof (sin2_cos2 x) as Hx. unfold Rsqr in Hx.
  set (a := cos x) in *. set (b := sin x) in *. clearbody a b.
  split; unfold rot13, Mmul, adjoint, Mid; cbn; f_equal; ceq; nsatz.
Qed.

Lemma diag_unitary a b c :
  Cabs2 a = 1 -> Cabs2 b = 1 -> Cabs2 c = 1 -> unitary (diag a b c).
Proof.
  destruct a as [ar ai], b as [br bi], c as [cr ci]. unfold Cabs2; simpl.
  intros Ha Hb Hc.
  split; unfold diag, Mmul, adjoint, Mid; cbn; f_equal; ceq; nra.
Qed.

(** *** Phases *)

Lemma sin_cos_1 x : sin x * sin x + cos x * cos x = 1.
Proof. exact (sin2_cos2 x). Qed.

Lemma Cexp_imaginary y : Cexp (mkC 0 y) = mkC (cos y) (sin y).
Proof. unfold Cexp; simpl. rewrite exp_0. apply complex_eq; simpl; ring. Qed.

Lemma phase_eq x : phase x = mkC (cos x) (- sin x).
Proof.
  unfold phase, cphase, If, RtoC, Cneg, Cmul; simpl.
  replace (- 0 * x - - (1) * 0) with 0 by ring.
  replace (- 0 * 0 + - (1) * x) with (- x) by ring.
  rewrite Cexp_imaginary, cos_neg, sin_neg. reflexivity.
Qed.

Lemma Cabs2_phase x : Cabs2 (phase x) = 1.
Proof.
  rewrite phase_eq. unfold Cabs2; simpl.
  pose proof (sin_cos_1 x). nra.
Qed.

Lemma phase_0 : phase 0 = C1.
Proof. rewrite phase_eq, cos_0, sin_0. apply complex_eq; simpl; ring. Qed.

(* ================================================================= *)
(** ** What [update] computes *)

Lemma op_update o : op (update o) = op o.
Proof. reflexivity. Qed.

Lemma Ud_update o : Ud (update o) = adjoint (U (update o)).
Proof. reflexivity. Qed.

Lemma H_update o :
  H (update o) =
  diag (RtoC (H_ (op o) I0)) (RtoC (H_ (op o) I1)) (RtoC (H_ (op o) I2)).
Proof. reflexivity. Qed.

Lemma chirality_eq p : IZR (Z.b2z (anti p) * -2 + 1) = chirality p.
Proof. unfold chirality. destruct (anti p); reflexivity. Qed.

Lemma Cexp_minus_i c d :
  Cexp (Crmul (Crmul (Cneg If) c) d) = mkC (cos (c * d)) (- sin (c * d)).
Proof.
  unfold If, Cneg, Crmul; simpl.
  replace (- 0 * c * d) with 0 by ring.
  replace (- (1) * c * d) with (- (c * d)) by ring.
  rewrite Cexp_imaginary, cos_neg, sin_neg. reflexivity.
Qed.

Lemma Cexp_plus_i c d :
  Cexp (Crmul (Crmul If c) d) = mkC (cos (c * d)) (sin (c * d)).
Proof.
  unfold If, Crmul; simpl.
  replace (0 * c * d) with 0 by ring.
  replace (1 * c * d) with (c * d) by ring.
  apply Cexp_imaginary.
Qed.

Lemma U_update o :
  let p := op o in
  let x := chirality p * dCP p in
  U (update o) =
  Mmul (Mmul (rot23 (cos (th23 p)) (sin (th23 p)))
             (rot13 (cos (th13 p)) (sin (th13 p))
                    (mkC (cos x) (- sin x)) (mkC (cos x) (sin x))))
       (rot12 (cos (th12 p)) (sin (th12 p))).
Proof.
  intros p x. unfold update; cbv beta zeta; cbn [U].
  fold p. rewrite Cexp_minus_i, Cexp_plus_i, chirality_eq. reflexivity.
Qed.

Lemma update_unitary o : unitary (U (update o)).
Proof.
  rewrite U_update.
  apply unitary_Mmul; [apply unitary_Mmul |].
  - apply rot23_unitary, sin_cos_1.
  - apply rot13_unitary, sin_cos_1.
  - apply rot12_unitary, sin_cos_1.
Qed.

(** The one coefficient of [V] that [update] writes, and the eight it does
    not. *)
Lemma V_update_00 o :
  m00 (V (update o)) =
  RtoC (chirality (op o) * sqrt 2 * 4.54164e-37 * (rho (op o) / 1.672e-27 / 2) * 1e3).
Proof. unfold update; cbn [V]. rewrite chirality_eq. reflexivity. Qed.

Lemma V_update_frame o i j :
  (i, j) <> (I0, I0) -> Mget (V (update o)) i j = Mget (V o) i j.
Proof.
  intros Hij. unfold update; cbn [V].
  destruct i, j; try reflexivity. now elim Hij.
Qed.

(** *** The initial amplitude *)

Lemma Vset_at_flavour f : flavour f -> Vset_at Vzero f (RtoC 1) = Some (e_ f).
Proof.
  unfold flavour; intros Hf.
  assert (f = 0 \/ f = 1 \/ f = 2)%Z as [-> | [-> | ->]] by lia; reflexivity.
Qed.

Lemma Vset_at_not_flavour f x : ~ flavour f -> Vset_at Vzero f x = None.
Proof.
  unfold flavour, Vset_at, idx_of_Z; intros Hf.
  destruct (Z.eqb_spec f 0); [lia|].
  destruct (Z.eqb_spec f 1); [lia|].
  destruct (Z.eqb_spec f 2); [lia|]. reflexivity.
Qed.

Lemma norm2_e f : flavour f -> norm2 (e_ f) = 1.
Proof.
  unfold flavour; intros Hf.
  assert (f = 0 \/ f = 1 \/ f = 2)%Z as [-> | [-> | ->]] by lia;
    unfold norm2, e_; unfold_C; ring.
Qed.

Lemma cwiseAbs2_e f : cwiseAbs2 (e_ f) = delta f.
Proof.
  unfold cwiseAbs2, e_, delta.
  destruct (f =? 0)%Z, (f =? 1)%Z, (f =? 2)%Z; unfold_C; f_equal; ring.
Qed.

(** *** Component-wise exponentiation of the diagonal *)

Lemma exp_diag_eq M :
  exp_diag M =
  mkM (Cexp (m00 M)) (m01 M) (m02 M)
      (m10 M) (Cexp (m11 M)) (m12 M)
      (m20 M) (m21 M) (Cexp (m22 M)).
Proof. reflexivity. Qed.

Lemma Mmap_Mmap f g M : Mmap f (Mmap g M) = Mmap (fun a => f (g a)) M.
Proof. reflexivity. Qed.

Lemma exp_diag_Mmap f M :
  exp_diag (Mmap f M) =
  mkM (Cexp (f (m00 M))) (f (m01 M)) (f (m02 M))
      (f (m10 M)) (Cexp (f (m11 M))) (f (m12 M))
      (f (m20 M)) (f (m21 M)) (Cexp (f (m22 M))).
Proof. reflexivity. Qed.

Lemma Mdivr_nonzero M x :
  x <> 0 -> Mdivr M x = Fin (Mmap (fun a => Crdiv a x) M).
Proof. intros Hx. unfold Mdivr. destruct (Req_dec_T x 0); [contradiction | reflexivity]. Qed.

Lemma Mdivr_zero M : Mdivr M 0 = NonFinite.
Proof. unfold Mdivr. destruct (Req_dec_T 0 0); [reflexivity | contradiction]. Qed.

Lemma ddiv_nonzero x d : d <> 0 -> ddiv x d = Fin (x / d).
Proof. intros Hd. unfold ddiv. destruct (Req_dec_T d 0); [contradiction | reflexivity]. Qed.

Lemma ddiv_zero x : ddiv x 0 = NonFinite.
Proof. unfold ddiv. destruct (Req_dec_T 0 0); [reflexivity | contradiction]. Qed.

(** The phase that the scaling and the exponentiation of a coefficient of
    [-If*H] give, for a scale [c * l / e] and for a scale [c * l / e / n]. *)
Lemma scaled_phase h c l e :
  e <> 0 ->
  Cexp (Crmul (Crmul (Crdiv (Cmul (Cneg If) (RtoC h)) e) c) l) =
  phase (h * c * l / e).
Proof.
  intros He. unfold phase, cphase. f_equal.
  apply complex_eq; unfold_C; unfold If; simpl; field; exact He.
Qed.

Lemma scaled_zero c l e :
  e <> 0 -> Crmul (Crmul (Crdiv (Cmul (Cneg If) C0) e) c) l = C0.
Proof.
  intros He. apply complex_eq; unfold_C; unfold If; simpl; field; exact He.
Qed.

Lemma scaled_phase_segment h c l e n :
  e <> 0 -> n <> 0 ->
  Cexp (Crdiv (Crmul (Crmul (Crdiv (Cmul (Cneg If) (RtoC h)) e) c) l) n) =
  phase (h * c * (l / n) / e).
Proof.
  intros He Hn. unfold phase, cphase. f_equal.
  apply complex_eq; unfold_C; unfold If; simpl; field; split; assumption.
Qed.

Lemma scaled_zero_segment c l e n :
  e <> 0 -> n <> 0 ->
  Crdiv (Crmul (Crmul (Crdiv (Cmul (Cneg If) C0) e) c) l) n = C0.
Proof.
  intros He Hn.
  apply complex_eq; unfold_C; unfold If; simpl; field; split; assumption.
Qed.

(** The propagator that [transvac] builds is the diagonal matrix of
    phases. *)
Lemma transvac_Hexp (h0 h1 h2 e c l : R) :
  e <> 0 ->
  exp_diag (Mr (Mr (Mmap (fun a => Crdiv a e)
                      (cM (Cneg If) (diag (RtoC h0) (RtoC h1) (RtoC h2))))
                  c) l) =
  diag (phase (h0 * c * l / e)) (phase (h1 * c * l / e))
       (phase (h2 * c * l / e)).
Proof.
  intros He. unfold Mr, cM. rewrite !Mmap_Mmap, exp_diag_Mmap.
  unfold diag. cbn [m00 m01 m02 m10 m11 m12 m20 m21 m22].
  rewrite !(scaled_phase _ _ _ _ He), !(scaled_zero _ _ _ He). reflexivity.
Qed.

(* ================================================================= *)
(** ** Invariants of the engine *)

(** [update] writes one coefficient of [V]; the others are zero from the
    construction on. *)
Lemma reachable_V o : reachable o -> zero_but_00 (V o).
Proof.
  induction 1 as [junk | o p _ IH | o _ IH]; intros i j Hij.
  - destruct i, j; try reflexivity. now elim Hij.
  - exact (IH i j Hij).
  - rewrite V_update_frame by exact Hij. exact (IH i j Hij).
Qed.

Lemma zero_but_00_off M : zero_but_00 M -> off_diagonal_zero M.
Proof. intros HM i j Hij. apply HM. congruence. Qed.

(* ================================================================= *)
(** ** The vacuum algorithm *)

Lemma vacuum_D_nonzero p :
  E p <> 0 ->
  vacuum_D p =
  Fin (diag (phase (H_ p I0 * 2.534 * L p / E p))
            (phase (H_ p I1 * 2.534 * L p / E p))
            (phase (H_ p I2 * 2.534 * L p / E p))).
Proof.
  intros He. unfold vacuum_D. rewrite !ddiv_nonzero by exact He. reflexivity.
Qed.

Lemma vacuum_D_zero p : E p = 0 -> vacuum_D p = NonFinite.
Proof. intros He. unfold vacuum_D. rewrite He, ddiv_zero. reflexivity. Qed.

(** On an engine whose derived quantities are current, [transvac] returns
    the squared magnitudes of [U D U^+ e_f]; both are NaN at zero energy. *)
Lemma transvac_update o :
  flavour (nu (op o)) ->
  transvac (update o) = Some (vacuum_formula (U (update o)) (op o)).
Proof.
  intros Hf. unfold transvac, vacuum_formula.
  rewrite op_update, (Vset_at_flavour _ Hf). f_equal.
  destruct (Req_dec_T (E (op o)) 0) as [He | He].
  - rewrite He, Mdivr_zero, (vacuum_D_zero _ He). reflexivity.
  - rewrite (Mdivr_nonzero _ _ He), (vacuum_D_nonzero _ He).
    cbn [fp_map fp_bind].
    rewrite H_update, (transvac_Hexp _ _ _ _ _ _ He), Ud_update, !Mv_Mmul.
    reflexivity.
Qed.

Lemma vacuum_D_unitary p D : vacuum_D p = Fin D -> unitary D.
Proof.
  destruct (Req_dec_T (E p) 0) as [He | He].
  - rewrite (vacuum_D_zero _ He). discriminate.
  - rewrite (vacuum_D_nonzero _ He). intros [= <-].
    apply diag_unitary; apply Cabs2_phase.
Qed.

Lemma vacuum_formula_total o :
  flavour (nu (op o)) -> E (op o) <> 0 ->
  exists p, vacuum_formula (U (update o)) (op o) = Fin p /\ total p = 1.
Proof.
  intros Hf He. unfold vacuum_formula.
  destruct (vacuum_D (op o)) as [D |] eqn:HD.
  2:{ rewrite (vacuum_D_nonzero _ He) in HD. discriminate. }
  cbn [fp_bind]. eexists; split; [reflexivity |].
  rewrite total_cwiseAbs2.
  rewrite (unitary_norm2 _ _ (update_unitary o)).
  rewrite (unitary_norm2 _ _ (vacuum_D_unitary _ _ HD)).
  rewrite (unitary_norm2 _ _ (unitary_adjoint _ (update_unitary o))).
  apply norm2_e, Hf.
Qed.

Lemma vacuum_formula_zero_baseline o :
  L (op o) = 0 -> E (op o) <> 0 ->
  vacuum_formula (U (update o)) (op o) = Fin (delta (nu (op o))).
Proof.
  intros HL He. unfold vacuum_formula.
  rewrite (vacuum_D_nonzero _ He), HL. cbn [fp_bind].
  replace (H_ (op o) I0 * 2.534 * 0 / E (op o)) with 0 by (field; exact He).
  replace (H_ (op o) I1 * 2.534 * 0 / E (op o)) with 0 by (field; exact He).
  replace (H_ (op o) I2 * 2.534 * 0 / E (op o)) with 0 by (field; exact He).
  rewrite phase_0. change (diag C1 C1 C1) with Mid.
  rewrite Mv_1, <- Mv_Mmul.
  destruct (update_unitary o) as [_ HU]. rewrite HU, Mv_1.
  f_equal. apply cwiseAbs2_e.
Qed.

(** *** Dispatch *)

Lemma trans_vacuum o : rho (op o) = 0 -> trans o = transvac o.
Proof.
  intros Hr. unfold trans. destruct (Req_dec_T (rho (op o)) 0); [reflexivity | contradiction].
Qed.

Lemma trans_matter o : rho (op o) <> 0 -> trans o = transmat o.
Proof.
  intros Hr. unfold trans. destruct (Req_dec_T (rho (op o)) 0); [contradiction | reflexivity].
Qed.

(* ================================================================= *)
(** ** The matter algorithm *)

(** Eigen's binary powering computes the power. *)
Lemma Mpow_add A m n : Mpow A (m + n) = Mmul (Mpow A m) (Mpow A n).
Proof.
  induction m as [| m IH]; cbn [Mpow Nat.add].
  - symmetry. apply Mmul_1_l.
  - rewrite IH. symmetry. apply Mmul_assoc.
Qed.

Lemma Mpow_1 A : Mpow A 1 = A.
Proof. cbn [Mpow]. apply Mmul_1_r. Qed.

Lemma Mpow_square A n : Mpow (Mmul A A) n = Mpow A (n + n).
Proof.
  induction n as [| n IH]; [reflexivity |].
  replace (S n + S n)%nat with (S (S (n + n))) by lia.
  cbn [Mpow]. rewrite IH. apply Mmul_assoc.
Qed.

Lemma computeIntPower_eq pp :
  forall m_tmp res,
    computeIntPower m_tmp res pp = Mmul (Mpow m_tmp (Pos.to_nat pp)) res.
Proof.
  induction pp as [q IH | q IH |]; intros m_tmp res; cbn [computeIntPower].
  - rewrite IH, Mpow_square, Pos2Nat.inj_xI.
    replace (S (2 * Pos.to_nat q)) with ((Pos.to_nat q + Pos.to_nat q) + 1)%nat by lia.
    rewrite (Mpow_add m_tmp (Pos.to_nat q + Pos.to_nat q) 1), Mpow_1.
    symmetry. apply Mmul_assoc.
  - rewrite IH, Mpow_square, Pos2Nat.inj_xO.
    replace (2 * Pos.to_nat q)%nat with (Pos.to_nat q + Pos.to_nat q)%nat by lia.
    reflexivity.
  - rewrite Pos2Nat.inj_1, Mpow_1. reflexivity.
Qed.

Lemma MatrixPower_eq A p : MatrixPower A p = Mpow A (Pos.to_nat p).
Proof. unfold MatrixPower. rewrite computeIntPower_eq. apply Mmul_1_r. Qed.

Lemma matter_Hexp_nonzero p :
  E p <> 0 ->
  matter_Hexp p =
  Fin (diag (phase (H_ p I0 * 2.534 * (L p / 128) / E p))
            (phase (H_ p I1 * 2.534 * (L p / 128) / E p))
            (phase (H_ p I2 * 2.534 * (L p / 128) / E p))).
Proof.
  intros He. unfold matter_Hexp. rewrite !ddiv_nonzero by exact He. reflexivity.
Qed.

Lemma matter_Hexp_zero p : E p = 0 -> matter_Hexp p = NonFinite.
Proof. intros He. unfold matter_Hexp. rewrite He, ddiv_zero. reflexivity. Qed.

Lemma transmat_Hexp (h0 h1 h2 e c l n : R) :
  e <> 0 -> n <> 0 ->
  exp_diag (Mmap (fun a => Crdiv a n)
              (Mr (Mr (Mmap (fun a => Crdiv a e)
                         (cM (Cneg If) (diag (RtoC h0) (RtoC h1) (RtoC h2))))
                      c) l)) =
  diag (phase (h0 * c * (l / n) / e)) (phase (h1 * c * (l / n) / e))
       (phase (h2 * c * (l / n) / e)).
Proof.
  intros He Hn. unfold Mr, cM. rewrite !Mmap_Mmap, exp_diag_Mmap.
  unfold diag. cbn [m00 m01 m02 m10 m11 m12 m20 m21 m22].
  rewrite !(scaled_phase_segment _ _ _ _ _ He Hn),
          !(scaled_zero_segment _ _ _ _ He Hn).
  reflexivity.
Qed.

(** The same for a coefficient of [-If*V]. *)
Lemma matter_phase (z : complex) l n :
  n <> 0 ->
  Cexp (Crdiv (Crmul (Cmul (Cneg If) z) l) n) = cphase (Crmul z (l / n)).
Proof.
  intros Hn. unfold cphase. f_equal. destruct z.
  apply complex_eq; unfold_C; unfold If; simpl; field; exact Hn.
Qed.

Lemma matter_zero l n : n <> 0 -> Crdiv (Crmul (Cmul (Cneg If) C0) l) n = C0.
Proof.
  intros Hn. apply complex_eq; unfold_C; unfold If; simpl; field; exact Hn.
Qed.

Lemma transmat_Vexp (Vm : Matrix3cd) (l n : R) :
  off_diagonal_zero Vm -> n <> 0 ->
  exp_diag (Mmap (fun a => Crdiv a n) (Mr (cM (Cneg If) Vm) l)) =
  diag (cphase (Crmul (Mget Vm I0 I0) (l / n)))
       (cphase (Crmul (Mget Vm I1 I1) (l / n)))
       (cphase (Crmul (Mget Vm I2 I2) (l / n))).
Proof.
  intros HV Hn.
  pose proof (HV I0 I1 ltac:(discriminate)) as H01.
  pose proof (HV I0 I2 ltac:(discriminate)) as H02.
  pose proof (HV I1 I0 ltac:(discriminate)) as H10.
  pose proof (HV I1 I2 ltac:(discriminate)) as H12.
  pose proof (HV I2 I0 ltac:(discriminate)) as H20.
  pose proof (HV I2 I1 ltac:(discriminate)) as H21.
  destruct Vm; cbn [Mget m00 m01 m02 m10 m11 m12 m20 m21 m22] in *; subst.
  unfold Mr, cM. rewrite !Mmap_Mmap, exp_diag_Mmap.
  unfold diag. cbn [m00 m01 m02 m10 m11 m12 m20 m21 m22 Mget].
  rewrite !(matter_phase _ _ _ Hn), !(matter_zero _ _ Hn). reflexivity.
Qed.

Lemma update_off_diagonal o :
  off_diagonal_zero (V o) -> off_diagonal_zero (V (update o)).
Proof.
  intros HV i j Hij. rewrite V_update_frame; [apply HV, Hij | congruence].
Qed.

(** When the coefficients of [V] that [update] leaves alone are zero,
    [transmat] returns the squared magnitudes of [U A^128 U^+ e_f]. *)
Lemma transmat_update o :
  flavour (nu (op o)) -> off_diagonal_zero (V o) ->
  transmat (update o) =
  Some (matter_formula (U (update o)) (V (update o)) (op o)).
Proof.
  intros Hf HV. unfold transmat, matter_formula.
  rewrite op_update, (Vset_at_flavour _ Hf). f_equal.
  assert (H128 : 128 <> 0) by lra.
  destruct (Req_dec_T (E (op o)) 0) as [He | He].
  - rewrite He, Mdivr_zero, (matter_Hexp_zero _ He). reflexivity.
  - rewrite (Mdivr_nonzero _ _ He), (matter_Hexp_nonzero _ He).
    cbn [fp_map fp_bind].
    rewrite !(Mdivr_nonzero _ _ H128). cbn [fp_map fp_bind].
    rewrite MatrixPower_eq. change (Pos.to_nat 128) with 128%nat.
    rewrite H_update, (transmat_Hexp _ _ _ _ _ _ _ He H128).
    rewrite (transmat_Vexp _ _ _ (update_off_diagonal _ HV) H128).
    fold (matter_Vexp (V (update o)) (op o)).
    rewrite Ud_update, !Mv_Mmul, !Mmul_assoc. reflexivity.
Qed.


(* ================================================================= *)
(** ** Numerical integration *)

(** The loop reads the engine through [U] and [H] only. *)
Lemma numtrans_loop_ext fuel o1 o2 E L step :
  U o1 = U o2 -> H o1 = H o2 ->
  forall l nu result,
    numtrans_loop fuel o1 E L step l nu result =
    numtrans_loop fuel o2 E L step l nu result.
Proof.
  intros HU HH. induction fuel as [| fuel IH]; intros l nu result.
  - reflexivity.
  - cbn [numtrans_loop]. rewrite HU, HH.
    destruct (Rlt_dec l L); [apply IH | reflexivity].
Qed.

Lemma numtrans_ext fuel o1 o2 nu1 E L step :
  U o1 = U o2 -> Ud o1 = Ud o2 -> H o1 = H o2 ->
  numtrans fuel o1 nu1 E L step = numtrans fuel o2 nu1 E L step.
Proof.
  intros HU HUd HH. unfold numtrans.
  destruct (Vset_at Vzero nu1 (RtoC 1)); [| reflexivity].
  rewrite HU, HUd. apply numtrans_loop_ext; assumption.
Qed.

(** [update] derives [U], [Ud] and [H] from the fields other than
    [rho]. *)
Lemma update_same_but_rho o1 o2 :
  same_but_rho (op o1) (op o2) ->
  U (update o1) = U (update o2) /\ Ud (update o1) = Ud (update o2) /\
  H (update o1) = H (update o2).
Proof.
  intros (_ & Ha & _ & _ & H12 & H23 & H13 & H21 & H31 & Hd).
  assert (HU : U (update o1) = U (update o2)).
  { rewrite !U_update. cbv zeta. unfold chirality.
    rewrite Ha, H12, H23, H13, Hd. reflexivity. }
  repeat split.
  - exact HU.
  - rewrite !Ud_update, HU. reflexivity.
  - rewrite !H_update. unfold H_. rewrite H21, H31. reflexivity.
Qed.

(** The loop only appends to [result]. *)
Lemma numtrans_loop_prefix fuel o E L step :
  forall l nu result r,
    numtrans_loop fuel o E L step l nu result = Some r ->
    exists tl, r = result ++ tl.
Proof.
  induction fuel as [| fuel IH]; intros l nu result r.
  - discriminate.
  - cbn [numtrans_loop]. destruct (Rlt_dec l L).
    + intros Hr. apply IH in Hr. destruct Hr as [tl ->].
      rewrite <- app_assoc. eexists; reflexivity.
    + intros [= <-]. exists []. symmetry. apply app_nil_r.
Qed.

(** With a positive step the loop ends. *)
Lemma numtrans_loop_ends o E L step n :
  0 < step ->
  forall l nu result,
    L - l <= INR n * step ->
    exists r, numtrans_loop (S n) o E L step l nu result = Some r.
Proof.
  intros Hs. induction n as [| n IH]; intros l nu result Hl.
  - cbn [numtrans_loop]. destruct (Rlt_dec l L) as [Hlt | _].
    + simpl in Hl. lra.
    + eexists; reflexivity.
  - remember (S n) as k. cbn [numtrans_loop]. subst k.
    destruct (Rlt_dec l L) as [_ | _].
    + apply IH. rewrite S_INR in Hl. lra.
    + eexists; reflexivity.
Qed.

Lemma steps_cover L step : 0 < step -> exists n, L <= INR n * step.
Proof.
  intros Hs. destruct (archimed (L / step)) as [Hup _].
  exists (Z.to_nat (up (L / step))).
  destruct (Z_lt_le_dec (up (L / step)) 0) as [Hneg | Hpos].
  - assert (IZR (up (L / step)) <= 0) by (apply IZR_le; lia).
    assert (L / step < 0) by lra.
    assert (L < 0).
    { replace L with (L / step * step) by (field; lra). nra. }
    replace (Z.to_nat (up (L / step))) with 0%nat by lia. simpl. lra.
  - rewrite INR_IZR_INZ, Z2Nat.id by lia.
    replace L with (L / step * step) at 1 by (field; lra).
    apply Rmult_le_compat_r; lra.
Qed.

Lemma numtrans_ends o nu1 E L step :
  flavour nu1 -> 0 < step \/ L <= 0 ->
  exists fuel r, numtrans fuel o nu1 E L step = Some r.
Proof.
  intros Hf Hs. unfold numtrans. rewrite (Vset_at_flavour _ Hf).
  destruct Hs as [Hs | HL].
  - destruct (steps_cover L step Hs) as [n Hn].
    exists (S n). apply numtrans_loop_ends; [exact Hs | lra].
  - exists 1%nat. cbn [numtrans_loop].
    destruct (Rlt_dec 0 L); [lra |]. eexists; reflexivity.
Qed.

Lemma numtrans_first fuel o nu1 E L step r :
  flavour nu1 ->
  numtrans fuel (update o) nu1 E L step = Some r ->
  hd_error r = Some (Fin (delta nu1)).
Proof.
  intros Hf. unfold numtrans. rewrite (Vset_at_flavour _ Hf).
  intros Hr. apply numtrans_loop_prefix in Hr. destruct Hr as [tl ->].
  cbn [app hd_error]. do 2 f_equal.
  rewrite Ud_update, <- Mv_Mmul.
  destruct (update_unitary o) as [_ HU]. rewrite HU, Mv_1.
  apply cwiseAbs2_e.
Qed.

(* ================================================================= *)
(** ** The parameter sweep *)

Lemma load_store r x m : load r (store r x m) = x.
Proof. destruct r; reflexivity. Qed.

Lemma store_store r x y m : store r x (store r y m) = store r x m.
Proof. destruct r; reflexivity. Qed.

Lemma nu_store r x m : nu (op (osc (store r x m))) = nu (op (osc m)).
Proof. destruct r; reflexivity. Qed.

(** [update] overwrites what an earlier [update] wrote. *)
Lemma refresh_store_refresh r x m :
  refresh (store r x (refresh m)) = refresh (store r x m).
Proof. destruct r; reflexivity. Qed.

Lemma trans_returns o : flavour (nu (op o)) -> exists r, trans o = Some r.
Proof.
  intros Hf. unfold trans, transvac, transmat.
  rewrite (Vset_at_flavour _ Hf).
  destruct (Req_dec_T (rho (op o)) 0); eexists; reflexivity.
Qed.

Lemma length_assign {A} (l : list A) i r : List.length (assign l i r) = List.length l.
Proof.
  revert i; induction l as [| a l IH]; intros [| i]; cbn; auto.
Qed.

Lemma nth_error_assign_eq {A} (l : list A) i r :
  (i < List.length l)%nat -> nth_error (assign l i r) i = Some r.
Proof.
  revert i; induction l as [| a l IH]; intros [| i]; cbn; intros Hi;
    try lia; auto. apply IH. lia.
Qed.

Lemma nth_error_assign_neq {A} (l : list A) i j r :
  i <> j -> nth_error (assign l i r) j = nth_error l j.
Proof.
  revert i j; induction l as [| a l IH]; intros [| i] [| j]; cbn; intros Hij;
    try reflexivity; try congruence. apply IH. congruence.
Qed.

Section Sweep.

Variables (par : dref) (step : R) (m0 : memory).
Hypothesis Hflavour : flavour (nu (op (osc m0))).

Lemma swept_step m x :
  swept par m0 m -> refresh (store par x m) = refresh (store par x m0).
Proof.
  intros [-> | [y ->]]; [reflexivity |].
  rewrite refresh_store_refresh, store_store. reflexivity.
Qed.

Lemma oscillate_loop_spec k :
  forall i m result,
    swept par m0 m -> List.length result = (i + k)%nat ->
    exists m' result',
      oscillate_loop k (Z.of_nat i) par step m result = Some (m', result') /\
      List.length result' = List.length result /\
      (forall j, (j < i)%nat -> nth_error result' j = nth_error result j) /\
      (forall j, (i <= j < i + k)%nat ->
         nth_error result' j =
         trans (update (osc (store par (IZR (Z.of_nat j) * step) m0)))) /\
      swept par m0 m'.
Proof.
  induction k as [| k IH]; intros i m result Hm Hlen.
  - exists m, result. cbn [oscillate_loop]. repeat split; auto. intros j Hj. lia.
  - cbn [oscillate_loop].
    change {| osc := update (osc (store par (IZR (Z.of_nat i) * step) m));
              cell := cell (store par (IZR (Z.of_nat i) * step) m) |}
      with (refresh (store par (IZR (Z.of_nat i) * step) m)).
    rewrite (swept_step _ _ Hm).
    set (m1 := refresh (store par (IZR (Z.of_nat i) * step) m0)).
    destruct (trans_returns (osc m1)) as [r Hr].
    { unfold m1, refresh. cbn [osc]. rewrite op_update, nu_store. exact Hflavour. }
    rewrite Hr, Nat2Z.id.
    replace (Z.of_nat i + 1)%Z with (Z.of_nat (S i)) by lia.
    destruct (IH (S i) m1 (assign result i r)) as (m' & result' & Hloop & Hl & Hlow & Hhigh & Hm').
    { right. eexists. reflexivity. }
    { rewrite length_assign. lia. }
    exists m', result'. split; [exact Hloop |].
    rewrite length_assign in Hl.
    repeat split; auto.
    + intros j Hj. rewrite Hlow by lia. apply nth_error_assign_neq. lia.
    + intros j Hj. destruct (Nat.eq_dec j i) as [-> | Hne].
      * rewrite Hlow by lia. rewrite nth_error_assign_eq by lia.
        symmetry. exact Hr.
      * apply Hhigh. lia.
Qed.

End Sweep.


(* ================================================================= *)
(** ** Export *)

Lemma lines_from_line body :
  Forall no_newline body ->
  forall cur rest,
    lines_from cur (body ++ Ch nl :: rest) =
    (rev cur ++ body) :: lines_from [] rest.
Proof.
  induction 1 as [| x body Hx _ IH]; intros cur rest.
  - cbn [app lines_from]. rewrite Ascii.eqb_refl, app_nil_r. reflexivity.
  - cbn [app lines_from]. destruct x as [c | x].
    + cbn in Hx. rewrite Hx, IH. cbn [rev]. rewrite <- app_assoc. reflexivity.
    + rewrite IH. cbn [rev]. rewrite <- app_assoc. reflexivity.
Qed.

Lemma no_newline_header : Forall no_newline header.
Proof. repeat constructor. Qed.

Lemma no_newline_row x v : Forall no_newline (row x v).
Proof. repeat constructor. Qed.

(** The lines of a text made of newline-terminated rows. *)
Lemma lines_rows {A} (f : A -> list item) (l : list A) :
  (forall a, Forall no_newline (f a)) ->
  lines_from [] (flat_map (fun a => f a ++ [Ch nl]) l) = map f l.
Proof.
  intros Hf. induction l as [| a l IH].
  - reflexivity.
  - cbn [flat_map map]. rewrite <- app_assoc. cbn [app].
    rewrite (lines_from_line _ (Hf a)), IH. reflexivity.
Qed.

Lemma fold_left_append {A B} (f : A -> list B) (l : list A) (init : list B) :
  fold_left (fun acc a => acc ++ f a) l init = init ++ flat_map f l.
Proof.
  revert init; induction l as [| a l IH]; intros init; cbn.
  - symmetry; apply app_nil_r.
  - rewrite IH, app_assoc. reflexivity.
Qed.

(** The file that [exportData] writes. *)
Lemma exportData_file probs final :
  fst (exportData true probs final) =
  Some (header ++ [Ch nl] ++
        flat_map (fun i => row (INR i * (final / INR (List.length probs)))
                             (nth i probs NonFinite) ++ [Ch nl])
                 (seq 0 (List.length probs))).
Proof.
  unfold exportData. cbn [negb fst].
  rewrite (fold_left_append
             (fun i => row (INR i * (final / INR (List.length probs)))
                         (nth i probs NonFinite) ++ [Ch nl])).
  rewrite <- app_assoc. reflexivity.
Qed.

Lemma exportData_lines probs final file :
  fst (exportData true probs final) = Some file ->
  lines file =
  header :: map (fun i => row (INR i * (final / INR (List.length probs)))
                            (nth i probs NonFinite))
                (seq 0 (List.length probs)).
Proof.
  rewrite exportData_file. intros [= <-]. unfold lines.
  etransitivity; [exact (lines_from_line header no_newline_header [] _) |].
  change (rev [] ++ header) with header. f_equal.
  apply (lines_rows
           (fun i => row (INR i * (final / INR (List.length probs)))
                       (nth i probs NonFinite))).
  intros i. apply no_newline_row.
Qed.

Lemma x_column_rows (c : R) (probs : list (fp Vector3d)) l :
  map x_of (map (fun i => row (INR i * c) (nth i probs NonFinite)) l) =
  map (fun i => Fin (INR i * c)) l.
Proof. rewrite map_map. reflexivity. Qed.

Lemma multiples_non_decreasing c n :
  0 <= c ->
  forall start, non_decreasing (map (fun i => Fin (INR i * c)) (seq start n)).
Proof.
  intros Hc. unfold non_decreasing. induction n as [| n IH]; intros start.
  - constructor.
  - cbn [seq map]. constructor; [apply IH |].
    destruct n as [| n]; cbn [seq map]; constructor.
    cbn [fp_le]. rewrite S_INR. nra.
Qed.

(* ================================================================= *)
(** ** The program on a few inputs *)

Example flavour_index_checked : Vset_at Vzero 3 (RtoC 1) = None.
Proof. reflexivity. Qed.

Example transvac_bad_flavour o :
  nu (op o) = 3%Z -> transvac o = None /\ transmat o = None.
Proof. intros Hnu. unfold transvac, transmat. rewrite Hnu. split; reflexivity. Qed.

Example exportData_unopened :
  exportData false [sample_e] 1 =
  (None, text "Couldn't create file nu.csv." ++ [Ch nl]).
Proof. reflexivity. Qed.

Example exportData_one_sample :
  fst (exportData true [sample_e] 2) =
  Some (text "x,e,mu,tau" ++ [Ch nl] ++
        [Num (Fin (0 * (2 / 1))); Ch ","%char; Num (Fin 1); Ch ","%char;
         Num (Fin 0); Ch ","%char; Num (Fin 0); Ch nl]).
Proof. reflexivity. Qed.

Example oscillate_negative_count :
  oscillate NonFinite (mkMemory default_engine 0) ref_E (-1) = None.
Proof. reflexivity. Qed.

Example oscillate_no_step :
  oscillate NonFinite (mkMemory default_engine 0) ref_E 0 =
  Some ([], mkMemory default_engine 0).
Proof. reflexivity. Qed.

Example MatrixPower_5 A :
  MatrixPower A 5 = Mmul (Mmul (Mmul A A) (Mmul A A)) (Mmul A Mid).
Proof. reflexivity. Qed.

(* ================================================================= *)
(** ** The claims of the specification *)

(** C1: with [matterDensity = 0], on an engine whose derived quantities are
    current, [transvac()] returns the component-wise squared magnitude of
    [U D U^+ e_f], where [e_f] is the unit vector of the initial flavour
    and [D] is the diagonal matrix of the entries
    [exp(-i H_kk 2.534 baseline / energy)] for the stored Hamiltonian
    [H = diag(0, Dm21sq, Dm31sq)].  (At zero energy both sides are not
    finite.) *)
Theorem C1_transvac_formula (o : Oscillator) :
  rho (op o) = 0 -> flavour (nu (op o)) ->
  H (update o) =
    diag (RtoC 0) (RtoC (Dm21sq (op o))) (RtoC (Dm31sq (op o))) /\
  Ud (update o) = adjoint (U (update o)) /\
  transvac (update o) = Some (vacuum_formula (U (update o)) (op o)).
Proof.
  intros _ Hf. split; [apply H_update | split].
  - apply Ud_update.
  - apply transvac_update, Hf.
Qed.

Lemma C1_witness :
  H (update default_engine) =
    diag (RtoC 0) (RtoC (Dm21sq (op default_engine)))
         (RtoC (Dm31sq (op default_engine))) /\
  Ud (update default_engine) = adjoint (U (update default_engine)) /\
  transvac (update default_engine) =
    Some (vacuum_formula (U (update default_engine)) (op default_engine)).
Proof.
  apply (C1_transvac_formula default_engine).
  - reflexivity.
  - unfold flavour; simpl; lia.
Defined.

(** C2: on every engine, [transmat()] returns the component-wise squared
    magnitude of [U A^128 U^+ e_f], where [A = Hexp U^+ Vexp U], [Hexp] is
    the diagonal matrix of the entries
    [exp(-i H_kk 2.534 (baseline/128) / energy)] and [Vexp] the diagonal
    matrix of the entries [exp(-i V_kk (baseline/128))]. *)
Theorem C2_transmat_formula (o : Oscillator) :
  reachable o -> flavour (nu (op o)) ->
  transmat (update o) =
  Some (matter_formula (U (update o)) (V (update o)) (op o)).
Proof.
  intros Ho Hf. apply transmat_update; [exact Hf |].
  apply zero_but_00_off, reachable_V, Ho.
Qed.

Lemma C2_witness :
  transmat (update (set_op default_engine in_matter)) =
  Some (matter_formula (U (update (set_op default_engine in_matter)))
          (V (update (set_op default_engine in_matter))) in_matter).
Proof.
  apply (C2_transmat_formula (set_op default_engine in_matter)).
  - apply reach_pars, reach_new.
  - unfold flavour; simpl; lia.
Defined.

(** C3: [trans()] returns the result of [transmat()] when
    [matterDensity <> 0] and the result of [transvac()] when
    [matterDensity = 0]. *)
Theorem C3_trans_dispatch (o : Oscillator) :
  (rho (op o) <> 0 -> trans o = transmat o) /\
  (rho (op o) = 0 -> trans o = transvac o).
Proof.
  split; [apply trans_matter | apply trans_vacuum].
Qed.

Lemma C3_witness :
  trans (engine in_matter) = transmat (engine in_matter) /\
  trans default_engine = transvac default_engine.
Proof.
  split.
  - apply (proj1 (C3_trans_dispatch (engine in_matter))). simpl. lra.
  - apply (proj2 (C3_trans_dispatch default_engine)). reflexivity.
Defined.

(** C4: after every call to [update()], the eight coefficients of [V] other
    than (0,0) are zero, and [V(0,0)] is the chirality sign times [sqrt 2]
    times the reduced Fermi constant times the electron number density of
    [matterDensity], times 1000 (per kilometre). *)
Theorem C4_matter_generator (o : Oscillator) :
  reachable o ->
  zero_but_00 (V (update o)) /\
  Mget (V (update o)) I0 I0 =
    RtoC (chirality (op o) * sqrt 2 * Gf * electron_density (rho (op o)) * 1e3).
Proof.
  intros Ho. split.
  - apply reachable_V, reach_update, Ho.
  - apply V_update_00.
Qed.

Lemma C4_witness :
  zero_but_00 (V (update (set_op default_engine in_matter))) /\
  Mget (V (update (set_op default_engine in_matter))) I0 I0 =
    RtoC (chirality in_matter * sqrt 2 * Gf * electron_density (rho in_matter) * 1e3).
Proof.
  apply (C4_matter_generator (set_op default_engine in_matter)).
  apply reach_pars, reach_new.
Defined.

(** C5: for real mixing angles, CP phase and mass splittings, any initial
    flavour, any baseline and nonzero energy, the three components of the
    vector returned by [transvac()] sum to 1 (in exact arithmetic). *)
Theorem C5_vacuum_probabilities_sum_to_one (o : Oscillator) :
  flavour (nu (op o)) -> E (op o) <> 0 ->
  exists p, transvac (update o) = Some (Fin p) /\ total p = 1.
Proof.
  intros Hf He. rewrite (transvac_update _ Hf).
  destruct (vacuum_formula_total o Hf He) as (p & -> & Hp).
  exists p. split; [reflexivity | exact Hp].
Qed.

Lemma C5_witness :
  exists p, transvac (update default_engine) = Some (Fin p) /\ total p = 1.
Proof.
  apply (C5_vacuum_probabilities_sum_to_one default_engine).
  - unfold flavour; simpl; lia.
  - simpl. lra.
Defined.

(** C6, as stated, fails at zero energy: with [baseline = 0],
    [matterDensity = 0] and [energy = 0] the query divides zero by zero and
    returns no finite vector. *)
Lemma C6_counterexample :
  L (op (engine at_rest)) = 0 /\ rho (op (engine at_rest)) = 0 /\
  flavour (nu (op (engine at_rest))) /\
  trans (engine at_rest) = Some NonFinite /\
  trans (engine at_rest) <> Some (Fin (delta (nu (op (engine at_rest))))).
Proof.
  assert (Ht : trans (engine at_rest) = Some NonFinite).
  { rewrite trans_vacuum by reflexivity. unfold engine.
    rewrite transvac_update by (unfold flavour; simpl; lia).
    unfold vacuum_formula. rewrite vacuum_D_zero by reflexivity. reflexivity. }
  split; [reflexivity |]. split; [reflexivity |].
  split; [unfold flavour; simpl; lia |].
  split; [exact Ht |]. rewrite Ht. discriminate.
Qed.

(** C6, amended: with [baseline = 0], [matterDensity = 0] and a nonzero
    energy, the probability query returns 1 at the index of the initial
    flavour and 0 at the other two, for any mixing angles, CP phase and mass
    splittings. *)
Theorem C6_zero_baseline (o : Oscillator) :
  L (op o) = 0 -> rho (op o) = 0 -> E (op o) <> 0 -> flavour (nu (op o)) ->
  trans (update o) = Some (Fin (delta (nu (op o)))).
Proof.
  intros HL Hr He Hf.
  rewrite trans_vacuum by (rewrite op_update; exact Hr).
  rewrite (transvac_update _ Hf). f_equal.
  apply vacuum_formula_zero_baseline; assumption.
Qed.

Lemma C6_witness :
  trans (update (set_op default_engine at_source)) = Some (Fin (delta 0)).
Proof.
  apply (C6_zero_baseline (set_op default_engine at_source)).
  - reflexivity.
  - reflexivity.
  - simpl. lra.
  - unfold flavour; simpl; lia.
Defined.

(** C7: [numtrans] does not depend on [matterDensity]: two engines whose
    parameter sets agree on all fields but [rho], each updated, return the
    same sequence for the same arguments; the call returns whenever the step
    is positive or the baseline is not. *)
Theorem C7_numtrans_ignores_density (o1 o2 : Oscillator) (nu1 : Z) (E L step : R) :
  same_but_rho (op o1) (op o2) ->
  (forall fuel,
     numtrans fuel (update o1) nu1 E L step =
     numtrans fuel (update o2) nu1 E L step) /\
  (flavour nu1 -> 0 < step \/ L <= 0 ->
   exists fuel r,
     numtrans fuel (update o1) nu1 E L step = Some r /\
     numtrans fuel (update o2) nu1 E L step = Some r).
Proof.
  intros Hsame.
  destruct (update_same_but_rho o1 o2 Hsame) as (HU & HUd & HH).
  assert (Heq : forall fuel,
            numtrans fuel (update o1) nu1 E L step =
            numtrans fuel (update o2) nu1 E L step).
  { intros fuel. apply numtrans_ext; assumption. }
  split; [exact Heq |].
  intros Hf Hs.
  destruct (numtrans_ends (update o1) nu1 E L step Hf Hs) as (fuel & r & Hr).
  exists fuel, r. split; [exact Hr |]. rewrite <- Heq. exact Hr.
Qed.

Lemma C7_witness :
  (forall fuel,
     numtrans fuel (update default_engine) 0 0.7 1 0.1 =
     numtrans fuel (update (set_op default_engine in_matter)) 0 0.7 1 0.1) /\
  (exists fuel r,
     numtrans fuel (update default_engine) 0 0.7 1 0.1 = Some r /\
     numtrans fuel (update (set_op default_engine in_matter)) 0 0.7 1 0.1 = Some r).
Proof.
  destruct (C7_numtrans_ignores_density default_engine
              (set_op default_engine in_matter) 0 0.7 1 0.1) as [Hsame Hends].
  - repeat split; reflexivity.
  - split; [exact Hsame |]. apply Hends.
    + unfold flavour; lia.
    + left; lra.
Defined.

(** C8: for every engine, swept parameter with initial value [v] and step
    count [n > 0], [oscillate(osc, par, n)] returns exactly [n] vectors, of
    which entry [i] is what [trans()] returns after the parameter is set to
    [i * (v / n)] and [update()] is called; afterwards the swept parameter
    has its original value [v]. *)
Theorem C8_oscillate (junk : fp Vector3d) (m : memory) (par : dref) (n : Z) :
  (0 < n)%Z -> flavour (nu (op (osc m))) ->
  exists result m',
    oscillate junk m par n = Some (result, m') /\
    List.length result = Z.to_nat n /\
    (forall i, (0 <= i < n)%Z ->
       nth_error result (Z.to_nat i) =
       trans (update (osc (store par (IZR i * (load par m / IZR n)) m)))) /\
    load par m' = load par m.
Proof.
  intros Hn Hf. unfold oscillate.
  destruct (Z.ltb_spec n 0) as [Hneg | _]; [lia |].
  destruct (oscillate_loop_spec par (load par m / IZR n) m Hf (Z.to_nat n) 0 m
              (repeat junk (Z.to_nat n)))
    as (m' & result & Hloop & Hlen & _ & Hhigh & _).
  { left; reflexivity. }
  { rewrite repeat_length. reflexivity. }
  cbn [Z.of_nat] in Hloop. rewrite Hloop.
  exists result, (store par (load par m) m'). repeat split.
  - rewrite Hlen, repeat_length. reflexivity.
  - intros i Hi. rewrite (Hhigh (Z.to_nat i)) by lia.
    rewrite Z2Nat.id by lia. reflexivity.
  - apply load_store.
Qed.

Lemma C8_witness :
  exists result m',
    oscillate NonFinite (mkMemory default_engine 0) ref_L 2 = Some (result, m') /\
    List.length result = Z.to_nat 2 /\
    (forall i, (0 <= i < 2)%Z ->
       nth_error result (Z.to_nat i) =
       trans (update (osc (store ref_L
                (IZR i * (load ref_L (mkMemory default_engine 0) / IZR 2))
                (mkMemory default_engine 0))))) /\
    load ref_L m' = load ref_L (mkMemory default_engine 0).
Proof.
  apply (C8_oscillate NonFinite (mkMemory default_engine 0) ref_L 2).
  - lia.
  - unfold flavour; simpl; lia.
Defined.

(** C9, as stated, fails for a negative final value: the [x] column of two
    vectors exported with [final = -1] is [0, -1/2]. *)
Lemma C9_counterexample :
  exists file,
    fst (exportData true [sample_e; sample_e] (-1)) = Some file /\
    ~ non_decreasing (map x_of (tl (lines file))).
Proof.
  eexists. split; [reflexivity |].
  cbn. intros Hs.
  inversion Hs as [| a l _ Hhd]; subst.
  inversion Hhd as [| b l' Hle]; subst.
  cbn in Hle. lra.
Qed.

(** C9, amended: for every sequence of [N] probability vectors and every
    final value [X >= 0], when the file opens, [exportData] writes the header
    line [x,e,mu,tau] followed by exactly [N] data lines, of which line [i]
    has the [x] value [i * (X / N)] followed by the three components of
    vector [i]; the [x] column is non-decreasing. *)
Theorem C9_exportData (probs : list (fp Vector3d)) (final : R) :
  0 <= final ->
  exists file,
    fst (exportData true probs final) = Some file /\
    lines file =
      header :: map (fun i => row (INR i * (final / INR (List.length probs)))
                                (nth i probs NonFinite))
                    (seq 0 (List.length probs)) /\
    List.length (lines file) = S (List.length probs) /\
    non_decreasing (map x_of (tl (lines file))).
Proof.
  intros Hfinal.
  destruct (fst (exportData true probs final)) as [file |] eqn:Hfile.
  2:{ rewrite exportData_file in Hfile. discriminate. }
  exists file. pose proof (exportData_lines _ _ _ Hfile) as Hlines.
  split; [reflexivity |]. split; [exact Hlines |]. rewrite Hlines. split.
  - cbn [List.length]. rewrite length_map, length_seq. reflexivity.
  - cbn [tl]. rewrite x_column_rows.
    destruct probs as [| v probs'].
    + constructor.
    + apply multiples_non_decreasing.
      apply Rmult_le_pos; [exact Hfinal |].
      left. apply Rinv_0_lt_compat, lt_0_INR. cbn. lia.
Qed.

Lemma C9_witness :
  exists file,
    fst (exportData true [sample_e; sample_e] 1) = Some file /\
    lines file =
      header :: map (fun i => row (INR i * (1 / INR (List.length [sample_e; sample_e])))
                                (nth i [sample_e; sample_e] NonFinite))
                    (seq 0 (List.length [sample_e; sample_e])) /\
    List.length (lines file) = S (List.length [sample_e; sample_e]) /\
    non_decreasing (map x_of (tl (lines file))).
Proof.
  apply (C9_exportData [sample_e; sample_e] 1). lra.
Defined.

(** C10: for real mixing angles and CP phase, the first element of the
    sequence that [numtrans(nu1, E, L, step)] returns is the vector with 1 at
    index [nu1] and 0 at the other two; the call returns whenever the step
    is positive or the baseline is not. *)
Theorem C10_numtrans_first_sample (o : Oscillator) (nu1 : Z) (E L step : R) :
  flavour nu1 ->
  (forall fuel r,
     numtrans fuel (update o) nu1 E L step = Some r ->
     hd_error r = Some (Fin (delta nu1))) /\
  (0 < step \/ L <= 0 ->
   exists fuel r,
     numtrans fuel (update o) nu1 E L step = Some r /\
     hd_error r = Some (Fin (delta nu1))).
Proof.
  intros Hf. split.
  - intros fuel r. apply numtrans_first, Hf.
  - intros Hs.
    destruct (numtrans_ends (update o) nu1 E L step Hf Hs) as (fuel & r & Hr).
    exists fuel, r. split; [exact Hr |].
    exact (numtrans_first _ _ _ _ _ _ _ Hf Hr).
Qed.

Lemma C10_witness :
  (forall fuel r,
     numtrans fuel (update default_engine) 1 0.7 1 0.1 = Some r ->
     hd_error r = Some (Fin (delta 1))) /\
  (exists fuel r,
     numtrans fuel (update default_engine) 1 0.7 1 0.1 = Some r /\
     hd_error r = Some (Fin (delta 1))).
Proof.
  destruct (C10_numtrans_first_sample default_engine 1 0.7 1 0.1)
    as [Hfirst Hends].
  - unfold flavour; lia.
  - split; [exact Hfirst |]. apply Hends. left; lra.
Defined.

(* ================================================================= *)
(** ** Further properties of the engine *)

(** *** What the engine keeps *)

Lemma update_coherent o : coherent (update o).
Proof.
  split; [apply update_unitary | split; [apply Ud_update |]].
  exists (Dm21sq (op o)), (Dm31sq (op o)). reflexivity.
Qed.

Lemma reachable_coherent o : reachable o -> coherent o.
Proof.
  induction 1 as [junk | o p _ IH | o _ _].
  - apply update_coherent.
  - exact IH.
  - apply update_coherent.
Qed.

Lemma flavour_dec f : {flavour f} + {~ flavour f}.
Proof.
  unfold flavour. destruct (Z_le_dec 0 f); [| right; lia].
  destruct (Z_lt_dec f 3); [left | right]; lia.
Qed.

Lemma Cabs2_nonneg z : 0 <= Cabs2 z.
Proof. unfold Cabs2. nra. Qed.

Lemma distribution_of_norm v : norm2 v = 1 -> distribution (cwiseAbs2 v).
Proof.
  intros Hv. unfold distribution, total, norm2 in *. cbn [cwiseAbs2 p0 p1 p2].
  pose proof (Cabs2_nonneg (v0 v)). pose proof (Cabs2_nonneg (v1 v)).
  pose proof (Cabs2_nonneg (v2 v)). repeat split; lra.
Qed.

(** The vacuum query on an engine whose derived quantities may be stale. *)
Lemma transvac_coherent o :
  coherent o -> flavour (nu (op o)) -> E (op o) <> 0 ->
  exists v, transvac o = Some (Fin (cwiseAbs2 v)) /\ norm2 v = 1.
Proof.
  intros (HU & HUd & h1 & h2 & HH) Hf He. unfold transvac.
  rewrite (Vset_at_flavour _ Hf), (Mdivr_nonzero _ _ He). cbn [fp_map fp_bind].
  rewrite HH, (transvac_Hexp _ _ _ _ _ _ He), HUd, !Mv_Mmul.
  eexists; split; [reflexivity |].
  rewrite (unitary_norm2 _ _ HU).
  rewrite (unitary_norm2 _ _ (diag_unitary _ _ _ (Cabs2_phase _) (Cabs2_phase _) (Cabs2_phase _))).
  rewrite (unitary_norm2 _ _ (unitary_adjoint _ HU)).
  apply norm2_e, Hf.
Qed.

(** X1: [update()] is idempotent. *)
Theorem update_idempotent (o : Oscillator) : update (update o) = update o.
Proof. destruct o as [p Um Udm Hm Vm He Ve Dm]. destruct Vm. reflexivity. Qed.

(** X2: on every engine a client can have, also one whose parameter set was
    edited without a call to [update()], [transvac()] returns a
    probability distribution: three numbers between 0 and 1 that sum to 1
    (for a flavour in 0..2 and a nonzero energy). *)
Theorem transvac_distribution (o : Oscillator) :
  reachable o -> flavour (nu (op o)) -> E (op o) <> 0 ->
  exists p, transvac o = Some (Fin p) /\ distribution p.
Proof.
  intros Ho Hf He.
  destruct (transvac_coherent o (reachable_coherent o Ho) Hf He) as (v & Hv & Hn).
  exists (cwiseAbs2 v). split; [exact Hv | apply distribution_of_norm, Hn].
Qed.

Lemma transvac_distribution_witness :
  exists p, transvac (set_op default_engine in_matter) = Some (Fin p) /\
            distribution p.
Proof.
  apply (transvac_distribution (set_op default_engine in_matter)).
  - apply reach_pars, reach_new.
  - unfold flavour; simpl; lia.
  - simpl; lra.
Defined.

(** The vacuum query reads the parameter set through [nu], [E] and [L]
    only. *)
Lemma transvac_ext o1 o2 :
  U o1 = U o2 -> Ud o1 = Ud o2 -> H o1 = H o2 ->
  nu (op o1) = nu (op o2) -> E (op o1) = E (op o2) -> L (op o1) = L (op o2) ->
  transvac o1 = transvac o2.
Proof.
  intros HU HUd HH Hnu HE HL. unfold transvac.
  rewrite HU, HUd, HH, Hnu, HE, HL. reflexivity.
Qed.

Lemma update_same_mixing o1 o2 :
  same_mixing (op o1) (op o2) ->
  U (update o1) = U (update o2) /\ Ud (update o1) = Ud (update o2) /\
  H (update o1) = H (update o2).
Proof.
  intros (Ha & H12 & H23 & H13 & H21 & H31 & Hd).
  assert (HU : U (update o1) = U (update o2)).
  { rewrite !U_update. cbv zeta. unfold chirality.
    rewrite Ha, H12, H23, H13, Hd. reflexivity. }
  split; [exact HU | split].
  - rewrite !Ud_update, HU. reflexivity.
  - rewrite !H_update. unfold H_. rewrite H21, H31. reflexivity.
Qed.

(** X3: an edit of [nu], [E], [L] or [rho] alone takes effect on
    [transvac()] at once: calling [update()] after it changes nothing. *)
Theorem transvac_kinematics_need_no_update (o : Oscillator) (p : OscPars) :
  same_mixing (op o) p ->
  transvac (update (set_op (update o) p)) = transvac (set_op (update o) p).
Proof.
  intros Hsame.
  destruct (update_same_mixing (set_op (update o) p) o) as (HU & HUd & HH).
  { cbn [op set_op]. destruct Hsame as (Ha & H12 & H23 & H13 & H21 & H31 & Hd).
    repeat split; symmetry; assumption. }
  apply transvac_ext; try reflexivity; cbn [U Ud H set_op]; assumption.
Qed.

Lemma transvac_kinematics_need_no_update_witness :
  transvac (update (set_op (update default_engine) at_source)) =
  transvac (set_op (update default_engine) at_source).
Proof.
  apply (transvac_kinematics_need_no_update default_engine at_source).
  repeat split; reflexivity.
Defined.

(** *** The vacuum algorithm *)

(** X4: the vacuum probabilities depend on the baseline and the energy
    through their ratio only: scaling both by the same nonzero factor leaves
    what [transvac()] returns unchanged. *)
Theorem transvac_ratio (o1 o2 : Oscillator) (k : R) :
  k <> 0 ->
  same_mixing (op o1) (op o2) -> nu (op o1) = nu (op o2) ->
  E (op o2) = k * E (op o1) -> L (op o2) = k * L (op o1) ->
  transvac (update o1) = transvac (update o2).
Proof.
  intros Hk Hsame Hnu HE HL.
  destruct (flavour_dec (nu (op o1))) as [Hf | Hf].
  2:{ unfold transvac. rewrite !op_update, <- Hnu.
      rewrite !(Vset_at_not_flavour _ _ Hf). reflexivity. }
  rewrite (transvac_update o1 Hf), (transvac_update o2) by (rewrite <- Hnu; exact Hf).
  destruct (update_same_mixing o1 o2 Hsame) as (HU & _ & _).
  destruct Hsame as (_ & _ & _ & _ & H21 & H31 & _).
  f_equal. unfold vacuum_formula. rewrite HU, Hnu.
  destruct (Req_dec_T (E (op o1)) 0) as [He | He].
  - rewrite (vacuum_D_zero (op o1)) by exact He.
    rewrite (vacuum_D_zero (op o2)) by (rewrite HE, He; ring). reflexivity.
  - assert (He2 : E (op o2) <> 0).
    { rewrite HE. apply Rmult_integral_contrapositive_currified; assumption. }
    rewrite (vacuum_D_nonzero _ He), (vacuum_D_nonzero _ He2).
    cbn [fp_bind H_]. rewrite HE, HL, <- H21, <- H31.
    do 4 f_equal.
    replace (0 * 2.534 * (k * L (op o1)) / (k * E (op o1)))
      with (0 * 2.534 * L (op o1) / E (op o1)) by (field; split; assumption).
    replace (Dm21sq (op o1) * 2.534 * (k * L (op o1)) / (k * E (op o1)))
      with (Dm21sq (op o1) * 2.534 * L (op o1) / E (op o1)) by (field; split; assumption).
    replace (Dm31sq (op o1) * 2.534 * (k * L (op o1)) / (k * E (op o1)))
      with (Dm31sq (op o1) * 2.534 * L (op o1) / E (op o1)) by (field; split; assumption).
    reflexivity.
Qed.

Lemma diag_on_e a b c f :
  flavour f -> Cabs2 a = 1 -> Cabs2 b = 1 -> Cabs2 c = 1 ->
  cwiseAbs2 (Mv (diag a b c) (e_ f)) = delta f.
Proof.
  intros Hf. destruct a as [ar ai], b as [br bi], c as [cr ci].
  unfold Cabs2; simpl. intros Ha Hb Hc. unfold flavour in Hf.
  assert (f = 0 \/ f = 1 \/ f = 2)%Z as [-> | [-> | ->]] by lia;
    unfold cwiseAbs2, Mv, diag, e_, delta; cbn; f_equal; unfold_C; nra.
Qed.

Lemma vacuum_formula_identity o :
  vacuum_D (op o) = Fin Mid ->
  vacuum_formula (U (update o)) (op o) = Fin (delta (nu (op o))).
Proof.
  intros HD. unfold vacuum_formula. rewrite HD. cbn [fp_bind].
  rewrite Mv_1, <- Mv_Mmul.
  destruct (update_unitary o) as [_ HU]. rewrite HU, Mv_1.
  f_equal. apply cwiseAbs2_e.
Qed.

Lemma transvac_ratio_witness :
  transvac (update default_engine) =
  transvac (update (set_op default_engine doubled)).
Proof.
  apply (transvac_ratio default_engine (set_op default_engine doubled) 2).
  - lra.
  - repeat split; reflexivity.
  - reflexivity.
  - reflexivity.
  - reflexivity.
Defined.

(** X5: with equal masses ([Dm21sq = Dm31sq = 0]) there is no oscillation in
    vacuum: at every baseline and nonzero energy [transvac()] returns 1 for
    the initial flavour and 0 for the other two. *)
Theorem transvac_equal_masses (o : Oscillator) :
  Dm21sq (op o) = 0 -> Dm31sq (op o) = 0 ->
  flavour (nu (op o)) -> E (op o) <> 0 ->
  transvac (update o) = Some (Fin (delta (nu (op o)))).
Proof.
  intros H21 H31 Hf He. rewrite (transvac_update _ Hf). f_equal.
  apply vacuum_formula_identity.
  rewrite (vacuum_D_nonzero _ He). cbn [H_]. rewrite H21, H31.
  replace (0 * 2.534 * L (op o) / E (op o)) with 0 by (field; exact He).
  rewrite phase_0. reflexivity.
Qed.

Lemma transvac_equal_masses_witness :
  transvac (update (set_op default_engine massless)) = Some (Fin (delta 1)).
Proof.
  apply (transvac_equal_masses (set_op default_engine massless)).
  - reflexivity.
  - reflexivity.
  - unfold flavour; simpl; lia.
  - simpl; lra.
Defined.

Lemma U_no_mixing o :
  th12 (op o) = 0 -> th23 (op o) = 0 -> th13 (op o) = 0 ->
  U (update o) = Mid.
Proof.
  intros H12 H23 H13. rewrite U_update. cbv zeta.
  rewrite H12, H23, H13, cos_0, sin_0.
  unfold rot23, rot13, rot12, Mmul, Mid; cbn; f_equal; ceq.
Qed.

Lemma adjoint_Mid : adjoint Mid = Mid.
Proof. unfold adjoint, Mid; cbn. f_equal; ceq. Qed.

(** X6: without mixing (all three angles zero) the flavour never changes in
    vacuum, whatever the CP phase, the mass splittings and the baseline. *)
Theorem transvac_no_mixing (o : Oscillator) :
  th12 (op o) = 0 -> th23 (op o) = 0 -> th13 (op o) = 0 ->
  flavour (nu (op o)) -> E (op o) <> 0 ->
  transvac (update o) = Some (Fin (delta (nu (op o)))).
Proof.
  intros H12 H23 H13 Hf He. rewrite (transvac_update _ Hf). f_equal.
  unfold vacuum_formula. rewrite (vacuum_D_nonzero _ He). cbn [fp_bind].
  rewrite (U_no_mixing o H12 H23 H13), adjoint_Mid, !Mv_1.
  f_equal. apply diag_on_e; [exact Hf | apply Cabs2_phase ..].
Qed.

Lemma transvac_no_mixing_witness :
  transvac (update (set_op default_engine unmixed)) = Some (Fin (delta 2)).
Proof.
  apply (transvac_no_mixing (set_op default_engine unmixed)).
  - reflexivity.
  - reflexivity.
  - reflexivity.
  - unfold flavour; simpl; lia.
  - simpl; lra.
Defined.

(** *** Particles and antiparticles *)

Lemma chirality_antiparticle p : chirality (antiparticle p) = - chirality p.
Proof. unfold chirality, antiparticle; cbn [anti]. destruct (anti p); cbn; ring. Qed.

Lemma chirality_mirror p :
  chirality (mirror p) * dCP (mirror p) = chirality p * dCP p.
Proof. unfold chirality, mirror; cbn [anti dCP]. destruct (anti p); cbn; ring. Qed.

Lemma U_mirror o : U (update (set_op o (mirror (op o)))) = U (update o).
Proof.
  rewrite !U_update. cbv zeta. cbn [op set_op].
  rewrite chirality_mirror. reflexivity.
Qed.

(** X7: in vacuum an antineutrino with CP phase [-dCP] has the
    probabilities of the neutrino with CP phase [dCP] (and conversely):
    flipping [anti] and negating [dCP] together leaves what [transvac()]
    returns after [update()] unchanged. *)
Theorem transvac_mirror (o : Oscillator) :
  transvac (update (set_op o (mirror (op o)))) = transvac (update o).
Proof.
  apply transvac_ext; try reflexivity.
  - apply U_mirror.
  - rewrite !Ud_update, U_mirror. reflexivity.
Qed.

Lemma conjugate_Mmul A B :
  conjugate (Mmul A B) = Mmul (conjugate A) (conjugate B).
Proof.
  destruct A, B. unfold conjugate, Mmap, Mmul.
  cbn [m00 m01 m02 m10 m11 m12 m20 m21 m22].
  rewrite ?Cconj_add, ?Cconj_mul. reflexivity.
Qed.

Lemma conjugate_rot23 c s : conjugate (rot23 c s) = rot23 c s.
Proof. unfold conjugate, rot23, Mmap; cbn. f_equal; ceq. Qed.

Lemma conjugate_rot12 c s : conjugate (rot12 c s) = rot12 c s.
Proof. unfold conjugate, rot12, Mmap; cbn. f_equal; ceq. Qed.

Lemma conjugate_rot13 c s x :
  conjugate (rot13 c s (mkC (cos x) (- sin x)) (mkC (cos x) (sin x))) =
  rot13 c s (mkC (cos (- x)) (- sin (- x))) (mkC (cos (- x)) (sin (- x))).
Proof.
  rewrite cos_neg, sin_neg.
  unfold conjugate, rot13, Mmap; cbn. f_equal; ceq.
Qed.

(** X8: the mixing matrix that [update()] builds for the antiparticle is the
    coefficient-wise complex conjugate of the one it builds for the
    particle. *)
Theorem U_antiparticle (o : Oscillator) :
  U (update (set_op o (antiparticle (op o)))) = conjugate (U (update o)).
Proof.
  rewrite !U_update. cbv zeta. cbn [op set_op].
  rewrite chirality_antiparticle, !conjugate_Mmul.
  rewrite conjugate_rot23, conjugate_rot12, conjugate_rot13.
  cbn [antiparticle th12 th23 th13 dCP].
  replace (- chirality (op o) * dCP (op o)) with (- (chirality (op o) * dCP (op o))) by ring.
  reflexivity.
Qed.

(** *** The matter algorithm *)

Lemma unitary_Mid : unitary Mid.
Proof. split; rewrite adjoint_Mid; apply Mmul_1_l. Qed.

Lemma unitary_Mpow A n : unitary A -> unitary (Mpow A n).
Proof.
  intros HA. induction n as [| n IH]; cbn [Mpow].
  - apply unitary_Mid.
  - apply unitary_Mmul; assumption.
Qed.

Lemma Mpow_Mid n : Mpow Mid n = Mid.
Proof.
  induction n as [| n IH]; cbn [Mpow]; [reflexivity |].
  rewrite IH. apply Mmul_1_l.
Qed.

Lemma cphase_real v t : cphase (Crmul (RtoC v) t) = phase (v * t).
Proof.
  unfold phase, cphase. do 2 f_equal. apply complex_eq; unfold_C; ring.
Qed.

Lemma cphase_zero t : cphase (Crmul C0 t) = C1.
Proof.
  change C0 with (RtoC 0). rewrite cphase_real, Rmult_0_l. apply phase_0.
Qed.

Lemma cphase_at_0 z : cphase (Crmul z 0) = C1.
Proof.
  rewrite <- phase_0. unfold phase, cphase. do 2 f_equal.
  destruct z. apply complex_eq; unfold_C; ring.
Qed.

(** The matter potential of a reachable engine: one real coefficient. *)
Lemma reachable_V_update o :
  reachable o ->
  V (update o) =
  diag (RtoC (chirality (op o) * sqrt 2 * Gf * electron_density (rho (op o)) * 1e3))
       C0 C0.
Proof.
  intros Ho.
  pose proof (reachable_V (update o) (reach_update o Ho)) as HV.
  pose proof (V_update_00 o) as H00.
  pose proof (HV I0 I1 ltac:(discriminate)) as H01.
  pose proof (HV I0 I2 ltac:(discriminate)) as H02.
  pose proof (HV I1 I0 ltac:(discriminate)) as H10.
  pose proof (HV I1 I1 ltac:(discriminate)) as H11.
  pose proof (HV I1 I2 ltac:(discriminate)) as H12.
  pose proof (HV I2 I0 ltac:(discriminate)) as H20.
  pose proof (HV I2 I1 ltac:(discriminate)) as H21.
  pose proof (HV I2 I2 ltac:(discriminate)) as H22.
  destruct (V (update o)) as [a00 a01 a02 a10 a11 a12 a20 a21 a22].
  cbn [Mget m00 m01 m02 m10 m11 m12 m20 m21 m22] in *. subst.
  reflexivity.
Qed.

Lemma matter_Vexp_unitary o :
  reachable o -> unitary (matter_Vexp (V (update o)) (op o)).
Proof.
  intros Ho. rewrite (reachable_V_update o Ho). unfold matter_Vexp, diag at 1 2 3.
  cbn [Mget m00 m11 m22].
  rewrite cphase_real, !cphase_zero.
  apply diag_unitary; [apply Cabs2_phase | |]; unfold Cabs2, C1, RtoC; simpl; ring.
Qed.

Lemma matter_Hexp_unitary p D : matter_Hexp p = Fin D -> unitary D.
Proof.
  destruct (Req_dec_T (E p) 0) as [He | He].
  - rewrite (matter_Hexp_zero _ He). discriminate.
  - rewrite (matter_Hexp_nonzero _ He). intros [= <-].
    apply diag_unitary; apply Cabs2_phase.
Qed.

(** X9: in matter too [transmat()] returns a probability distribution:
    every factor of the product formula is unitary. *)
Theorem transmat_distribution (o : Oscillator) :
  reachable o -> flavour (nu (op o)) -> E (op o) <> 0 ->
  exists p, transmat (update o) = Some (Fin p) /\ distribution p.
Proof.
  intros Ho Hf He.
  rewrite (transmat_update o Hf (zero_but_00_off _ (reachable_V o Ho))).
  unfold matter_formula.
  destruct (matter_Hexp (op o)) as [D |] eqn:HD.
  2:{ rewrite (matter_Hexp_nonzero _ He) in HD. discriminate. }
  cbn [fp_bind]. eexists; split; [reflexivity |].
  apply distribution_of_norm.
  pose proof (update_unitary o) as HU.
  rewrite (unitary_norm2 _ _ HU).
  rewrite unitary_norm2.
  2:{ apply unitary_Mpow. apply unitary_Mmul; [exact (matter_Hexp_unitary _ _ HD) |].
      apply unitary_Mmul; [apply unitary_adjoint, HU |].
      apply unitary_Mmul; [apply matter_Vexp_unitary, Ho | exact HU]. }
  rewrite (unitary_norm2 _ _ (unitary_adjoint _ HU)).
  apply norm2_e, Hf.
Qed.

Lemma transmat_distribution_witness :
  exists p, transmat (update (set_op default_engine in_matter)) = Some (Fin p) /\
            distribution p.
Proof.
  apply (transmat_distribution (set_op default_engine in_matter)).
  - apply reach_pars, reach_new.
  - unfold flavour; simpl; lia.
  - simpl; lra.
Defined.

(** Products of phases. *)
Lemma phase_add x y : Cmul (phase x) (phase y) = phase (x + y).
Proof.
  rewrite !phase_eq, cos_plus, sin_plus. apply complex_eq; simpl; ring.
Qed.

Lemma Mmul_diag a b c a' b' c' :
  Mmul (diag a b c) (diag a' b' c') = diag (Cmul a a') (Cmul b b') (Cmul c c').
Proof. unfold Mmul, diag; cbn. f_equal; ring. Qed.

Lemma Mpow_diag_phase x y z n :
  Mpow (diag (phase x) (phase y) (phase z)) n =
  diag (phase (INR n * x)) (phase (INR n * y)) (phase (INR n * z)).
Proof.
  induction n as [| n IH].
  - cbn [Mpow INR]. rewrite !Rmult_0_l, phase_0. reflexivity.
  - cbn [Mpow]. rewrite IH, Mmul_diag, !phase_add, S_INR.
    f_equal; f_equal; ring.
Qed.

Lemma INR_128 : INR 128 = 128.
Proof. rewrite INR_IZR_INZ. reflexivity. Qed.

(** X10: at zero matter density the product formula is exact: on an engine
    with [rho = 0], [transmat()] returns what [transvac()] returns. *)
Theorem transmat_without_matter (o : Oscillator) :
  reachable o -> rho (op o) = 0 ->
  transmat (update o) = transvac (update o).
Proof.
  intros Ho Hr.
  destruct (flavour_dec (nu (op o))) as [Hf | Hf].
  2:{ unfold transmat, transvac. rewrite !op_update.
      rewrite !(Vset_at_not_flavour _ _ Hf). reflexivity. }
  rewrite (transmat_update o Hf (zero_but_00_off _ (reachable_V o Ho))).
  rewrite (transvac_update o Hf). f_equal.
  unfold matter_formula, vacuum_formula.
  destruct (Req_dec_T (E (op o)) 0) as [He | He].
  - rewrite (matter_Hexp_zero _ He), (vacuum_D_zero _ He). reflexivity.
  - rewrite (matter_Hexp_nonzero _ He), (vacuum_D_nonzero _ He). cbn [fp_bind].
    replace (matter_Vexp (V (update o)) (op o)) with Mid.
    2:{ rewrite (reachable_V_update o Ho), Hr.
        unfold matter_Vexp, diag at 1 2 3. cbn [Mget m00 m11 m22].
        rewrite cphase_real, !cphase_zero.
        replace (chirality (op o) * sqrt 2 * Gf * electron_density 0 * 1e3 *
                 (L (op o) / 128)) with 0
          by (unfold electron_density, Rdiv; ring).
        rewrite phase_0. reflexivity. }
    rewrite Mmul_1_l.
    destruct (update_unitary o) as [HU _]. rewrite HU, Mmul_1_r.
    rewrite Mpow_diag_phase, INR_128.
    replace (128 * (H_ (op o) I0 * 2.534 * (L (op o) / 128) / E (op o)))
      with (H_ (op o) I0 * 2.534 * L (op o) / E (op o)) by (field; exact He).
    replace (128 * (H_ (op o) I1 * 2.534 * (L (op o) / 128) / E (op o)))
      with (H_ (op o) I1 * 2.534 * L (op o) / E (op o)) by (field; exact He).
    replace (128 * (H_ (op o) I2 * 2.534 * (L (op o) / 128) / E (op o)))
      with (H_ (op o) I2 * 2.534 * L (op o) / E (op o)) by (field; exact He).
    reflexivity.
Qed.

Lemma transmat_without_matter_witness :
  transmat (update default_engine) = transvac (update default_engine).
Proof.
  apply (transmat_without_matter default_engine).
  - apply reach_new.
  - reflexivity.
Defined.

Lemma trans_at_source o :
  reachable o -> L (op o) = 0 -> E (op o) <> 0 -> flavour (nu (op o)) ->
  trans (update o) = Some (Fin (delta (nu (op o)))).
Proof.
  intros Ho HL He Hf. unfold trans. rewrite op_update.
  destruct (Req_dec_T (rho (op o)) 0) as [Hr | Hr].
  - rewrite (transvac_update _ Hf). f_equal.
    apply vacuum_formula_zero_baseline; assumption.
  - rewrite (transmat_update o Hf (zero_but_00_off _ (reachable_V o Ho))).
    f_equal. unfold matter_formula.
    rewrite (matter_Hexp_nonzero _ He), HL. cbn [fp_bind].
    replace (H_ (op o) I0 * 2.534 * (0 / 128) / E (op o)) with 0 by (field; exact He).
    replace (H_ (op o) I1 * 2.534 * (0 / 128) / E (op o)) with 0 by (field; exact He).
    replace (H_ (op o) I2 * 2.534 * (0 / 128) / E (op o)) with 0 by (field; exact He).
    rewrite phase_0. change (diag C1 C1 C1) with Mid.
    replace (matter_Vexp (V (update o)) (op o)) with Mid.
    2:{ unfold matter_Vexp. rewrite HL.
        replace (0 / 128) with 0 by field.
        rewrite !cphase_at_0. reflexivity. }
    rewrite !Mmul_1_l.
    destruct (update_unitary o) as [HU1 HU2].
    rewrite HU1, Mpow_Mid, Mv_1, <- Mv_Mmul, HU2, Mv_1.
    f_equal. apply cwiseAbs2_e.
Qed.

(** X11: at zero baseline the flavour is the initial one in matter as in
    vacuum: with [L = 0] and a nonzero energy [trans()] returns 1 for the
    initial flavour and 0 for the other two, whatever the density. *)
Theorem trans_zero_baseline (o : Oscillator) :
  reachable o -> L (op o) = 0 -> E (op o) <> 0 -> flavour (nu (op o)) ->
  trans (update o) = Some (Fin (delta (nu (op o)))).
Proof. apply trans_at_source. Qed.

Lemma trans_zero_baseline_witness :
  trans (update (set_op default_engine at_source_in_matter)) =
  Some (Fin (delta 1)).
Proof.
  apply (trans_zero_baseline (set_op default_engine at_source_in_matter)).
  - apply reach_pars, reach_new.
  - reflexivity.
  - simpl; lra.
  - unfold flavour; simpl; lia.
Defined.

(** *** Numerical integration *)

Lemma numtrans_loop_stuck fuel o E L step :
  step <= 0 ->
  forall l nu result, l < L ->
    numtrans_loop fuel o E L step l nu result = None.
Proof.
  intros Hs. induction fuel as [| fuel IH]; intros l nu result Hl.
  - reflexivity.
  - cbn [numtrans_loop]. destruct (Rlt_dec l L) as [_ | Hn]; [| contradiction].
    apply IH. lra.
Qed.

(** X12: with a step that is not positive and a positive baseline
    [numtrans] never returns: its loop counter never reaches [L]. *)
Theorem numtrans_never_returns (fuel : nat) (o : Oscillator) (nu1 : Z)
    (E L step : R) :
  step <= 0 -> 0 < L -> numtrans fuel o nu1 E L step = None.
Proof.
  intros Hs HL. unfold numtrans.
  destruct (Vset_at Vzero nu1 (RtoC 1)); [| reflexivity].
  apply numtrans_loop_stuck; [exact Hs | exact HL].
Qed.

Lemma numtrans_never_returns_witness :
  numtrans 1000 default_engine 0 0.7 1 (-0.1) = None.
Proof.
  apply (numtrans_never_returns 1000 default_engine 0 0.7 1 (-0.1)); lra.
Defined.

(** X13: with a baseline that is not positive [numtrans] returns the initial
    sample alone, whatever the step and the energy: 1 for the flavour
    [nu1] and 0 for the other two. *)
Theorem numtrans_no_baseline (fuel : nat) (o : Oscillator) (nu1 : Z)
    (E L step : R) :
  L <= 0 -> flavour nu1 ->
  numtrans (S fuel) (update o) nu1 E L step = Some [Fin (delta nu1)].
Proof.
  intros HL Hf. unfold numtrans. rewrite (Vset_at_flavour _ Hf).
  cbn [numtrans_loop]. destruct (Rlt_dec 0 L); [lra |].
  rewrite Ud_update, <- Mv_Mmul.
  destruct (update_unitary o) as [_ HU]. rewrite HU, Mv_1, cwiseAbs2_e.
  reflexivity.
Qed.

Lemma numtrans_no_baseline_witness :
  numtrans 1 (update default_engine) 2 0.7 (-1) 0.1 = Some [Fin (delta 2)].
Proof.
  apply (numtrans_no_baseline 0 default_engine 2 0.7 (-1) 0.1).
  - lra.
  - unfold flavour; lia.
Defined.








(** The matrix of one Euler step is diagonal and imaginary. *)
Lemma euler_matrix h1 h2 c s e :
  e <> 0 ->
  Mmap (fun a => Crdiv a e)
    (Mr (Mr (cM (Cneg If) (diag (RtoC 0) (RtoC h1) (RtoC h2))) c) s) =
  diag (mkC 0 0) (mkC 0 (- (h1 * c * s / e))) (mkC 0 (- (h2 * c * s / e))).
Proof.
  intros He. unfold Mr, cM. rewrite !Mmap_Mmap. unfold Mmap, diag.
  cbn [m00 m01 m02 m10 m11 m12 m20 m21 m22].
  f_equal; apply complex_eq; unfold_C; unfold If; simpl; field; exact He.
Qed.

Lemma euler_norm x y z v :
  norm2 (Vadd v (Mv (diag (mkC 0 x) (mkC 0 y) (mkC 0 z)) v)) =
  (1 + x * x) * Cabs2 (v0 v) + (1 + y * y) * Cabs2 (v1 v) +
  (1 + z * z) * Cabs2 (v2 v).
Proof.
  destruct v as [[a0 b0] [a1 b1] [a2 b2]].
  unfold norm2, Vadd, Mv, diag. unfold_C. ring.
Qed.

Lemma euler_grows x y z v :
  norm2 v <= norm2 (Vadd v (Mv (diag (mkC 0 x) (mkC 0 y) (mkC 0 z)) v)).
Proof.
  rewrite euler_norm. unfold norm2.
  pose proof (Rmult_le_pos _ _ (Rle_0_sqr x) (Cabs2_nonneg (v0 v))) as H0.
  pose proof (Rmult_le_pos _ _ (Rle_0_sqr y) (Cabs2_nonneg (v1 v))) as H1.
  pose proof (Rmult_le_pos _ _ (Rle_0_sqr z) (Cabs2_nonneg (v2 v))) as H2.
  unfold Rsqr in *. lra.
Qed.

Lemma numtrans_loop_grows fuel o E L step :
  unitary (U o) ->
  (exists h1 h2, H o = diag (RtoC 0) (RtoC h1) (RtoC h2)) ->
  E <> 0 ->
  forall l v result r,
    1 <= norm2 v -> Forall at_least_one result ->
    numtrans_loop fuel o E L step l (Fin v) result = Some r ->
    Forall at_least_one r.
Proof.
  intros HU (h1 & h2 & HH) He.
  induction fuel as [| fuel IH]; intros l v result r Hv Hres.
  - discriminate.
  - cbn [numtrans_loop]. destruct (Rlt_dec l L).
    + rewrite (Mdivr_nonzero _ _ He), HH, (euler_matrix _ _ _ _ _ He).
      cbn [fp_bind fp_map].
      apply IH.
      * eapply Rle_trans; [exact Hv | apply euler_grows].
      * apply Forall_app. split; [exact Hres |].
        constructor; [| constructor]. cbn [at_least_one].
        rewrite total_cwiseAbs2, (unitary_norm2 _ _ HU).
        eapply Rle_trans; [exact Hv | apply euler_grows].
    + intros [= <-]. exact Hres.
Qed.

(** X16: the Euler steps of [numtrans] never lose probability: every sample
    of the returned sequence is finite and its three components sum to at
    least 1 (for a nonzero energy). *)
Theorem numtrans_total_at_least_one (o : Oscillator) (nu1 : Z) (E L step : R) :
  reachable o -> flavour nu1 -> E <> 0 ->
  forall fuel r,
    numtrans fuel o nu1 E L step = Some r -> Forall at_least_one r.
Proof.
  intros Ho Hf He fuel r.
  destruct (reachable_coherent o Ho) as (HU & HUd & HH).
  unfold numtrans. rewrite (Vset_at_flavour _ Hf).
  assert (Hn : norm2 (Mv (Ud o) (e_ nu1)) = 1).
  { rewrite HUd, (unitary_norm2 _ _ (unitary_adjoint _ HU)). apply norm2_e, Hf. }
  apply (numtrans_loop_grows fuel o E L step HU HH He).
  - rewrite Hn. lra.
  - constructor; [| constructor]. cbn [at_least_one].
    rewrite total_cwiseAbs2, (unitary_norm2 _ _ HU), Hn. lra.
Qed.

Lemma numtrans_total_at_least_one_witness :
  exists fuel r,
    numtrans fuel default_engine 0 0.7 1 0.1 = Some r /\ Forall at_least_one r.
Proof.
  assert (Hf : flavour 0) by (unfold flavour; lia).
  destruct (numtrans_ends default_engine 0 0.7 1 0.1 Hf) as (fuel & r & Hr).
  - left; lra.
  - exists fuel, r. split; [exact Hr |].
    apply (numtrans_total_at_least_one default_engine 0 0.7 1 0.1
             (reach_new Mdzero) Hf) with (fuel := fuel); [lra | exact Hr].
Defined.

(** X17: [numtrans] takes the flavour, the energy and the baseline from its
    arguments: two updated engines whose parameter sets agree on [anti], the
    angles, the CP phase and the mass splittings return the same sequence,
    whatever their stored [nu], [E], [L] and [rho]. *)
Theorem numtrans_ignores_stored_kinematics (o1 o2 : Oscillator) (nu1 : Z)
    (E L step : R) (fuel : nat) :
  same_mixing (op o1) (op o2) ->
  numtrans fuel (update o1) nu1 E L step =
  numtrans fuel (update o2) nu1 E L step.
Proof.
  intros Hsame.
  destruct (update_same_mixing o1 o2 Hsame) as (HU & HUd & HH).
  apply numtrans_ext; assumption.
Qed.

Lemma numtrans_ignores_stored_kinematics_witness :
  numtrans 5 (update default_engine) 0 0.7 1 0.5 =
  numtrans 5 (update (set_op default_engine at_rest)) 0 0.7 1 0.5.
Proof.
  apply (numtrans_ignores_stored_kinematics default_engine
           (set_op default_engine at_rest) 0 0.7 1 0.5 5).
  repeat split; reflexivity.
Defined.

(** *** Comparing parameter sets *)

Lemma Reqb_true x y : Reqb x y = true <-> x = y.
Proof. unfold Reqb. destruct (Req_dec_T x y); split; congruence. Qed.

Lemma OscPars_eq_true a b :
  OscPars_eq a b = true <->
  th12 a = th12 b /\ th23 a = th23 b /\ th13 a = th13 b /\
  Dm21sq a = Dm21sq b /\ Dm31sq a = Dm31sq b /\ dCP a = dCP b.
Proof.
  unfold OscPars_eq. rewrite !andb_true_iff, !Reqb_true. tauto.
Qed.

(** X18: [operator==] is an equivalence on parameter sets (for real field
    values), and [operator!=] is its negation. *)
Theorem OscPars_eq_equivalence :
  (forall a, OscPars_eq a a = true) /\
  (forall a b, OscPars_eq a b = OscPars_eq b a) /\
  (forall a b c, OscPars_eq a b = true -> OscPars_eq b c = true ->
                 OscPars_eq a c = true) /\
  (forall a b, OscPars_neq a b = true <-> OscPars_eq a b = false).
Proof.
  split; [| split; [| split]].
  - intros a. apply OscPars_eq_true. repeat split; reflexivity.
  - intros a b.
    destruct (OscPars_eq a b) eqn:Hab, (OscPars_eq b a) eqn:Hba; try reflexivity.
    + apply OscPars_eq_true in Hab.
      assert (OscPars_eq b a = true) by (apply OscPars_eq_true; intuition congruence).
      congruence.
    + apply OscPars_eq_true in Hba.
      assert (OscPars_eq a b = true) by (apply OscPars_eq_true; intuition congruence).
      congruence.
  - intros a b c Hab Hbc. apply OscPars_eq_true in Hab, Hbc.
    apply OscPars_eq_true. intuition congruence.
  - intros a b. unfold OscPars_neq. destruct (OscPars_eq a b); cbn; split; congruence.
Qed.

(** X19: two parameter sets that [operator==] holds equal and that have the
    same [anti] give the same [U], [Ud] and [H] after [update()]. *)
Theorem OscPars_eq_same_derived (o1 o2 : Oscillator) :
  OscPars_eq (op o1) (op o2) = true -> anti (op o1) = anti (op o2) ->
  U (update o1) = U (update o2) /\ Ud (update o1) = Ud (update o2) /\
  H (update o1) = H (update o2).
Proof.
  intros Heq Ha. apply OscPars_eq_true in Heq.
  apply update_same_mixing. unfold same_mixing. intuition.
Qed.

Lemma OscPars_eq_same_derived_witness :
  U (update default_engine) = U (update (set_op default_engine at_rest)) /\
  Ud (update default_engine) = Ud (update (set_op default_engine at_rest)) /\
  H (update default_engine) = H (update (set_op default_engine at_rest)).
Proof.
  apply (OscPars_eq_same_derived default_engine (set_op default_engine at_rest)).
  - apply OscPars_eq_true. repeat split; reflexivity.
  - reflexivity.
Defined.

Lemma Im_U02 o :
  Im (m02 (U (update o))) =
  - (sin (th13 (op o)) * sin (chirality (op o) * dCP (op o))).
Proof.
  rewrite U_update. cbv zeta. unfold Mmul, rot23, rot13, rot12.
  cbn [m00 m01 m02 m10 m11 m12 m20 m21 m22]. unfold_C. ring.
Qed.

(** X20: [operator==] does not compare [anti], which [update()] reads: a
    parameter set and the one with [anti] flipped are held equal, and
    their mixing matrices differ whenever [sin th13] and [sin dCP] are not
    zero. *)
Theorem OscPars_eq_ignores_anti (o : Oscillator) :
  sin (th13 (op o)) <> 0 -> sin (dCP (op o)) <> 0 ->
  OscPars_eq (op o) (antiparticle (op o)) = true /\
  U (update o) <> U (update (set_op o (antiparticle (op o)))).
Proof.
  intros H13 Hd. split.
  - apply OscPars_eq_true. repeat split; reflexivity.
  - intros Heq. apply (f_equal (fun M => Im (m02 M))) in Heq.
    rewrite !Im_U02 in Heq. cbn [op set_op] in Heq.
    rewrite chirality_antiparticle in Heq.
    cbn [antiparticle th13 dCP] in Heq.
    replace (- chirality (op o) * dCP (op o))
      with (- (chirality (op o) * dCP (op o))) in Heq by ring.
    rewrite sin_neg in Heq.
    assert (Hs : sin (chirality (op o) * dCP (op o)) <> 0).
    { unfold chirality. destruct (anti (op o)).
      - replace (-1 * dCP (op o)) with (- dCP (op o)) by ring.
        rewrite sin_neg. lra.
      - rewrite Rmult_1_l. exact Hd. }
    assert (Hp : sin (th13 (op o)) * sin (chirality (op o) * dCP (op o)) <> 0)
      by (apply Rmult_integral_contrapositive_currified; assumption).
    lra.
Qed.

Lemma OscPars_eq_ignores_anti_witness :
  OscPars_eq (op (set_op default_engine maximal))
             (antiparticle (op (set_op default_engine maximal))) = true /\
  U (update (set_op default_engine maximal)) <>
  U (update (set_op (set_op default_engine maximal)
                    (antiparticle (op (set_op default_engine maximal))))).
Proof.
  apply (OscPars_eq_ignores_anti (set_op default_engine maximal));
    cbn [op set_op maximal th13 dCP]; rewrite sin_PI2; lra.
Defined.

(** *** Failing and degenerate queries *)



Lemma trans_not_finite o :
  E (op o) = 0 -> flavour (nu (op o)) ->
  transvac o = Some NonFinite /\ transmat o = Some NonFinite /\
  trans o = Some NonFinite.
Proof.
  intros He Hf.
  assert (Hv : transvac o = Some NonFinite).
  { unfold transvac. rewrite (Vset_at_flavour _ Hf), He, Mdivr_zero. reflexivity. }
  assert (Hm : transmat o = Some NonFinite).
  { unfold transmat. rewrite (Vset_at_flavour _ Hf), He, Mdivr_zero. reflexivity. }
  split; [exact Hv | split; [exact Hm |]].
  unfold trans. destruct (Req_dec_T (rho (op o)) 0); assumption.
Qed.

(** X22: with energy 0 every probability query returns a vector that is not
    finite, whatever the other parameters: both algorithms divide the
    Hamiltonian by the energy. *)
Theorem queries_at_zero_energy (o : Oscillator) :
  E (op o) = 0 -> flavour (nu (op o)) ->
  transvac o = Some NonFinite /\ transmat o = Some NonFinite /\
  trans o = Some NonFinite.
Proof. apply trans_not_finite. Qed.

Lemma queries_at_zero_energy_witness :
  transvac (engine at_rest) = Some NonFinite /\
  transmat (engine at_rest) = Some NonFinite /\
  trans (engine at_rest) = Some NonFinite.
Proof.
  apply (queries_at_zero_energy (engine at_rest)).
  - reflexivity.
  - unfold flavour; simpl; lia.
Defined.

(** *** The parameter sweep, again *)

Lemma store_load r m : store r (load r m) m = m.
Proof. destruct r, m as [[[] ? ? ? ? ? ? ?] ?]; reflexivity. Qed.


(** X23: [oscillate] with [numsteps = 0] returns the empty sequence and
    leaves the engine and the swept parameter as they were. *)
Theorem oscillate_zero_steps (junk : fp Vector3d) (m : memory) (par : dref) :
  oscillate junk m par 0 = Some ([], m).
Proof.
  unfold oscillate. cbn [Z.ltb Z.compare Z.to_nat oscillate_loop repeat].
  rewrite store_load. reflexivity.
Qed.



Section SweepEnd.

Variables (par : dref) (step : R) (m0 : memory).

(** Where the loop leaves the engine: at the last point of the sweep. *)
Lemma oscillate_loop_end k :
  forall i m result m' result',
    swept par m0 m ->
    oscillate_loop (S k) (Z.of_nat i) par step m result = Some (m', result') ->
    m' = refresh (store par (IZR (Z.of_nat (i + k)) * step) m0).
Proof.
  induction k as [| k IH]; intros i m result m' result' Hm.
  - cbn [oscillate_loop].
    change {| osc := update (osc (store par (IZR (Z.of_nat i) * step) m));
              cell := cell (store par (IZR (Z.of_nat i) * step) m) |}
      with (refresh (store par (IZR (Z.of_nat i) * step) m)).
    rewrite (swept_step _ _ _ _ Hm), Nat.add_0_r.
    destruct (trans _); [| discriminate]. intros [= <- _]. reflexivity.
  - remember (S k) as k'. cbn [oscillate_loop]. subst k'.
    change {| osc := update (osc (store par (IZR (Z.of_nat i) * step) m));
              cell := cell (store par (IZR (Z.of_nat i) * step) m) |}
      with (refresh (store par (IZR (Z.of_nat i) * step) m)).
    rewrite (swept_step _ _ _ _ Hm).
    destruct (trans _); [| discriminate].
    replace (Z.of_nat i + 1)%Z with (Z.of_nat (S i)) by lia.
    intros Hloop. apply IH in Hloop.
    + rewrite Hloop. do 4 f_equal. lia.
    + right. eexists. reflexivity.
Qed.

End SweepEnd.

Lemma restore_engine par x m :
  osc (store par (load par m) (refresh (store par x m))) =
  set_op (update (osc (store par x m))) (op (osc m)) /\
  cell (store par (load par m) (refresh (store par x m))) = cell m.
Proof.
  destruct m as [[[] ? ? ? ? ? ? ?] ?], par; split; reflexivity.
Qed.

(** What [oscillate] returns, entry by entry, and how it leaves the
    memory. *)
Lemma oscillate_returns junk m par n :
  (0 < n)%Z -> flavour (nu (op (osc m))) ->
  exists result,
    oscillate junk m par n =
      Some (result,
            store par (load par m)
              (refresh (store par (IZR (n - 1) * (load par m / IZR n)) m))) /\
    List.length result = Z.to_nat n /\
    (forall i, (0 <= i < n)%Z ->
       nth_error result (Z.to_nat i) =
       trans (update (osc (store par (IZR i * (load par m / IZR n)) m)))).
Proof.
  intros Hn Hf. unfold oscillate.
  destruct (Z.ltb_spec n 0) as [Hneg | _]; [lia |].
  destruct (oscillate_loop_spec par (load par m / IZR n) m Hf (Z.to_nat n) 0 m
              (repeat junk (Z.to_nat n)))
    as (m' & result & Hloop & Hlen & _ & Hhigh & _).
  { left; reflexivity. }
  { rewrite repeat_length. reflexivity. }
  cbn [Z.of_nat] in Hloop. rewrite Hloop.
  assert (Hend : m' = refresh (store par (IZR (n - 1) * (load par m / IZR n)) m)).
  { destruct (Z.to_nat n) as [| k] eqn:Hk; [lia |].
    rewrite (oscillate_loop_end par (load par m / IZR n) m k 0 m _ m' result
               ltac:(left; reflexivity) Hloop).
    do 4 f_equal. lia. }
  exists result. rewrite Hend. split; [reflexivity | split].
  - rewrite Hlen, repeat_length. reflexivity.
  - intros i Hi. rewrite (Hhigh (Z.to_nat i)) by lia.
    rewrite Z2Nat.id by lia. reflexivity.
Qed.

(** X25: after a sweep the parameter set is as before, but the derived
    quantities are those of the last point of the sweep,
    [(n-1) * (v/n)]: [oscillate] does not call [update()] after it has put
    the parameter back. *)
Theorem oscillate_leaves_last_point (junk : fp Vector3d) (m : memory)
    (par : dref) (n : Z) :
  (0 < n)%Z -> flavour (nu (op (osc m))) ->
  exists result m',
    oscillate junk m par n = Some (result, m') /\
    cell m' = cell m /\
    osc m' =
      set_op (update (osc (store par (IZR (n - 1) * (load par m / IZR n)) m)))
             (op (osc m)).
Proof.
  intros Hn Hf.
  destruct (oscillate_returns junk m par n Hn Hf) as (result & Hr & _ & _).
  destruct (restore_engine par (IZR (n - 1) * (load par m / IZR n)) m) as [Ho Hc].
  eexists _, _. split; [exact Hr | split; [exact Hc | exact Ho]].
Qed.

Lemma oscillate_leaves_last_point_witness :
  exists result m',
    oscillate NonFinite (mkMemory default_engine 0) ref_L 2 = Some (result, m') /\
    cell m' = cell (mkMemory default_engine 0) /\
    osc m' =
      set_op (update (osc (store ref_L
                (IZR (2 - 1) * (load ref_L (mkMemory default_engine 0) / IZR 2))
                (mkMemory default_engine 0))))
             (op (osc (mkMemory default_engine 0))).
Proof.
  apply (oscillate_leaves_last_point NonFinite (mkMemory default_engine 0) ref_L 2).
  - lia.
  - unfold flavour; simpl; lia.
Defined.

(** X26: a sweep of the energy starts at energy 0: the first vector that
    [oscillate] returns for the parameter [E] is not finite. *)
Theorem oscillate_energy_starts_not_finite (junk : fp Vector3d) (m : memory)
    (n : Z) :
  (0 < n)%Z -> flavour (nu (op (osc m))) ->
  exists result m',
    oscillate junk m ref_E n = Some (result, m') /\
    nth_error result 0 = Some NonFinite.
Proof.
  intros Hn Hf.
  destruct (oscillate_returns junk m ref_E n Hn Hf) as (result & Hr & _ & Hent).
  eexists _, _. split; [exact Hr |].
  change 0%nat with (Z.to_nat 0). rewrite (Hent 0%Z) by lia.
  apply trans_not_finite.
  - rewrite op_update. cbn [store osc op set_op E]. ring.
  - rewrite op_update, nu_store. exact Hf.
Qed.

Lemma oscillate_energy_starts_not_finite_witness :
  exists result m',
    oscillate NonFinite (mkMemory default_engine 0) ref_E 4 = Some (result, m') /\
    nth_error result 0 = Some NonFinite.
Proof.
  apply (oscillate_energy_starts_not_finite NonFinite (mkMemory default_engine 0) 4).
  - lia.
  - unfold flavour; simpl; lia.
Defined.

(** X27: a sweep of the baseline starts at the source: for a nonzero energy
    the first vector that [oscillate] returns for the parameter [L] is 1
    for the initial flavour and 0 for the other two, in vacuum and in
    matter. *)
Theorem oscillate_baseline_starts_at_source (junk : fp Vector3d) (m : memory)
    (n : Z) :
  reachable (osc m) -> (0 < n)%Z -> flavour (nu (op (osc m))) ->
  E (op (osc m)) <> 0 ->
  exists result m',
    oscillate junk m ref_L n = Some (result, m') /\
    nth_error result 0 = Some (Fin (delta (nu (op (osc m))))).
Proof.
  intros Ho Hn Hf He.
  destruct (oscillate_returns junk m ref_L n Hn Hf) as (result & Hr & _ & Hent).
  eexists _, _. split; [exact Hr |].
  change 0%nat with (Z.to_nat 0). rewrite (Hent 0%Z) by lia.
  rewrite <- (nu_store ref_L (0 * (load ref_L m / IZR n)) m).
  apply trans_at_source.
  - cbn [store osc]. apply reach_pars, Ho.
  - cbn [store osc op set_op L]. ring.
  - cbn [store osc op set_op E]. exact He.
  - rewrite nu_store. exact Hf.
Qed.

Lemma oscillate_baseline_starts_at_source_witness :
  exists result m',
    oscillate NonFinite (mkMemory (engine in_matter) 0) ref_L 4 =
      Some (result, m') /\
    nth_error result 0 =
      Some (Fin (delta (nu (op (osc (mkMemory (engine in_matter) 0)))))).
Proof.
  apply (oscillate_baseline_starts_at_source NonFinite
           (mkMemory (engine in_matter) 0) 4).
  - apply reach_update, reach_pars, reach_new.
  - lia.
  - unfold flavour; simpl; lia.
  - simpl; lra.
Defined.

(** *** Export, read back *)


